(** * Peer-to-peer message framing: protocol.h and net/net_message.h

    A shallow embedding of the wire-protocol declarations of the node:
    the message header and its serialisation, the incoming message
    assembler, the inventory descriptor and the protoconf message.

    Conventions.
    - A C++ [uintN_t] is a [Z] in the range [0, 2^N); arithmetic that can
      leave the range is wrapped explicitly ([wrap32]).
    - A byte buffer ([CDataStream], [const char*] plus length,
      [std::array<char, N>]) is a [list byte].
    - A C++ exception is a value of [exception]; code that may throw
      returns [Exc].
    - Part I holds the definitions, Part II the lemmas and theorems. *)

From Stdlib Require Import String Ascii ZArith Lia List Bool Permutation.
From coqutil Require Import Byte Word.LittleEndianList.
Import ListNotations.
Local Open Scope Z_scope.

(* ===================================================================== *)
(** * Part I. Definitions                                                  *)
(* ===================================================================== *)

(** ** Machine integers *)

Definition wrap32 (z : Z) : Z := z mod 2 ^ 32.
Definition wrap64 (z : Z) : Z := z mod 2 ^ 64.

(** [std::numeric_limits<uint32_t>::max()] and its 64-bit sibling. *)
Definition UINT32_MAX : Z := 0xFFFFFFFF.
Definition UINT64_MAX : Z := 0xFFFFFFFFFFFFFFFF.

(** ** Exceptions *)

(** The two exception types that the framing code throws:
    [std::ios_base::failure] from (de)serialisation and [BanPeer]
    (net_message.h), a [std::runtime_error] carrying a message. *)
Inductive exception : Type :=
| ios_base_failure (what : string)
| BanPeer (what : string).

Inductive Exc (A : Type) : Type :=
| Return (a : A)
| Throw (e : exception).
Arguments Return {A} a.
Arguments Throw {A} e.

Definition bind {A B : Type} (c : Exc A) (k : A -> Exc B) : Exc B :=
  match c with
  | Return a => k a
  | Throw e => Throw e
  end.

Notation "x <- c ;; k" := (bind c (fun x => k))
  (at level 61, c at next level, right associativity).
Notation "' p <- c ;; k" := (bind c (fun x => let p := x in k))
  (at level 61, p pattern, c at next level, right associativity).

(** ** uint256 *)

(** uint256.h is not part of the sources at hand.  What protocol.h uses of
    it is equality, [operator<] and access to the 32 underlying bytes
    ([begin()]); they are taken as an interface whose comparison is a
    strict total order, which holds for a byte-wise as well as for a
    numeric comparison of 256-bit blobs. *)
Class Uint256 : Type := {
  uint256 : Type;
  u256_eqb : uint256 -> uint256 -> bool;
  u256_ltb : uint256 -> uint256 -> bool;
  u256_begin : uint256 -> list byte;
  u256_begin_length : forall a, length (u256_begin a) = 32%nat;
  u256_eqb_eq : forall a b, u256_eqb a b = true <-> a = b;
  u256_ltb_irrefl : forall a, u256_ltb a a = false;
  u256_ltb_trans : forall a b c,
      u256_ltb a b = true -> u256_ltb b c = true -> u256_ltb a c = true;
  u256_ltb_total : forall a b,
      u256_ltb a b = false -> u256_ltb b a = false -> a = b
}.

(** ** Inventory descriptor: [class CInv] *)

(** [const uint32_t MSG_TYPE_MASK = 0xffffffff >> 3;] *)
Definition MSG_TYPE_MASK : Z := Z.shiftr 0xffffffff 3.

(** [enum GetDataMsg] with the numbers the protocol assigns. *)
Inductive GetDataMsg : Type :=
| UNDEFINED
| MSG_TX
| MSG_BLOCK
| MSG_FILTERED_BLOCK
| MSG_CMPCT_BLOCK.

Definition GetDataMsg_value (m : GetDataMsg) : Z :=
  match m with
  | UNDEFINED => 0
  | MSG_TX => 1
  | MSG_BLOCK => 2
  | MSG_FILTERED_BLOCK => 3
  | MSG_CMPCT_BLOCK => 4
  end.

Coercion GetDataMsg_value : GetDataMsg >-> Z.

Module CInv.
Section WithUint256.
Context {U : Uint256}.

(** [uint32_t type; uint256 hash;] *)
Record t : Type := mk { type : Z; hash : uint256 }.

(** [CInv() : type(0), hash()] needs the null blob and is not used here;
  [CInv(typeIn, hashIn)] is [mk]. *)

(** [operator<]:
  [a.type < b.type || (a.type == b.type && a.hash < b.hash)] *)
Definition operator_lt (a b : t) : bool :=
  (type a <? type b) || ((type a =? type b) && u256_ltb (hash a) (hash b)).

(** [operator==]: [a.type == b.type && a.hash == b.hash] *)
Definition operator_eq (a b : t) : bool :=
  (type a =? type b) && u256_eqb (hash a) (hash b).

(** [GetKind]: [type & MSG_TYPE_MASK] *)
Definition GetKind (a : t) : Z := Z.land (type a) MSG_TYPE_MASK.

Definition IsTx (a : t) : bool :=
  let k := GetKind a in
  k =? MSG_TX.

Definition IsSomeBlock (a : t) : bool :=
  let k := GetKind a in
  (k =? MSG_BLOCK) || (k =? MSG_FILTERED_BLOCK) || (k =? MSG_CMPCT_BLOCK).

(** Sorting a sequence of inventory items with the default comparator
  ([std::sort] uses [operator<]); insertion sort stands for it. *)
Fixpoint insert (x : t) (l : list t) : list t :=
  match l with
  | [] => [x]
  | y :: l' => if operator_lt y x then y :: insert x l' else x :: y :: l'
  end.

Definition sort (l : list t) : list t := fold_right insert [] l.

(** A sequence in strictly ascending order under [operator<]. *)
Fixpoint ascending (l : list t) : bool :=
  match l with
  | [] => true
  | x :: l' =>
      match l' with
      | [] => true
      | y :: _ => operator_lt x y && ascending l'
      end
  end.
End WithUint256.

(** [estimateMaxInvElements(unsigned int maxPayloadLength)]:
    [(maxPayloadLength - 8) / (4 + 32)] in [unsigned int] arithmetic, the
    result returned as [uint32_t]. *)
Definition estimateMaxInvElements (maxPayloadLength : Z) : Z :=
  wrap32 (wrap32 (maxPayloadLength - 8) / wrap32 (4 + 32)).

(** Bytes an inv message with [n] elements takes when the element count is
    encoded on 8 bytes, as the comment on [estimateMaxInvElements] assumes:
    8 bytes of count, then 4 bytes of type and 32 bytes of hash per
    element. *)
Definition inv_message_size (n : Z) : Z := 8 + n * (4 + 32).
End CInv.
Arguments CInv.t {U}.

(** ** Deserialisation streams *)

(** The [Stream] template parameter of [SerializationOp], read side.
    serialize.h is not part of the sources at hand; the three reads that
    [CProtoconf] performs are the interface:
    [READWRITECOMPACTSIZE] on a [uint64_t], [READWRITE] on a [uint32_t],
    and [READWRITE(LIMITED_STRING(s, limit))]. *)
Class ReadStream (S : Type) : Type := {
  ReadCompactSize : S -> Exc (Z * S);
  ReadUint32 : S -> Exc (Z * S);
  ReadLimitedString : Z -> S -> Exc (list byte * S)
}.

(** ** Protoconf: [class CProtoconf] *)

Module CProtoconf.

(** [static constexpr size_t MAX_NUM_STREAM_POLICIES {10};] *)
Definition MAX_NUM_STREAM_POLICIES : Z := 10.

(** [uint64_t numberOfFields {2}; uint32_t maxRecvPayloadLength {0};
   std::string streamPolicies {};] *)
Record t : Type := mk {
  numberOfFields : Z;
  maxRecvPayloadLength : Z;
  streamPolicies : list byte
}.

(** [CProtoconf() = default] *)
Definition default : t := mk 2 0 [].

(** [CProtoconf(maxRecvPayloadLengthIn, streamPoliciesIn)] *)
Definition make (maxRecvPayloadLengthIn : Z) (streamPoliciesIn : list byte) : t :=
  mk 2 (wrap32 maxRecvPayloadLengthIn) streamPoliciesIn.

Definition zero_fields_message : string :=
  "Invalid deserialization. Number of fields specified in protoconf is equal to 0.".

Section WithStream.
Context {Stream : Type} {RS : ReadStream Stream}.

(** [MAX_STREAM_POLICY_NAME_LENGTH] comes from net/net_types.h, which is
    not part of the sources at hand; it is left open. *)
Variable MAX_STREAM_POLICY_NAME_LENGTH : Z.

(** [SerializationOp] with a reading [ser_action], on the object
  [obj] that is deserialised into. *)
Definition Unserialize (obj : t) (s : Stream) : Exc (t * Stream) :=
  '(n, s) <- ReadCompactSize s ;;
  let obj := mk n (maxRecvPayloadLength obj) (streamPolicies obj) in
  if n >? 0 then
    '(len, s) <- ReadUint32 s ;;
    let obj := mk (numberOfFields obj) len (streamPolicies obj) in
    if n >? 1 then
      '(str, s) <- ReadLimitedString
                     ((MAX_STREAM_POLICY_NAME_LENGTH + 1) * MAX_NUM_STREAM_POLICIES) s ;;
      Return (mk (numberOfFields obj) (maxRecvPayloadLength obj) str, s)
    else Return (obj, s)
  else Throw (ios_base_failure zero_fields_message).
End WithStream.
End CProtoconf.


(** ** Byte streams *)

(** Modelled from the spec: streams.h and serialize.h are not part of the
    sources at hand; [CDataStream] reading and the integer layouts are
    taken from the byte layout the specification gives (all multi-byte
    integers little-endian; a variable-length count; a length-bounded
    string).  The variable-length count uses the one-byte form below 253
    and the marker bytes 253, 254, 255 for 2, 4 and 8 byte forms.  A read
    past the end of the data throws. *)
Module ByteStream.

Definition end_of_data : string := "CDataStream::read(): end of data".
Definition string_too_long : string := "String length limit exceeded".

Definition read (n : nat) (s : list byte) : Exc (list byte * list byte) :=
  if (length s <? n)%nat then Throw (ios_base_failure end_of_data)
  else Return (firstn n s, skipn n s).

Definition ser_readdata (n : nat) (s : list byte) : Exc (Z * list byte) :=
  '(bs, s) <- read n s ;;
  Return (le_combine bs, s).

Definition ser_writedata (n : nat) (v : Z) : list byte := le_split n v.

Definition ReadCompactSize (s : list byte) : Exc (Z * list byte) :=
  '(chSize, s) <- ser_readdata 1 s ;;
  if chSize <? 253 then Return (chSize, s)
  else if chSize =? 253 then ser_readdata 2 s
  else if chSize =? 254 then ser_readdata 4 s
  else ser_readdata 8 s.

Definition ReadLimitedString (limit : Z) (s : list byte) : Exc (list byte * list byte) :=
  '(size, s) <- ReadCompactSize s ;;
  if size >? limit then Throw (ios_base_failure string_too_long)
  else read (Z.to_nat size) s.

#[global] Instance stream : ReadStream (list byte) := {
  ReadCompactSize := ReadCompactSize;
  ReadUint32 := ser_readdata 4;
  ReadLimitedString := ReadLimitedString
}.

End ByteStream.

(** ** C strings in fixed-size arrays *)

Definition is_nul (c : byte) : bool := Byte.eqb c Byte.x00.

(** [strnlen(s, n)]: the number of bytes before the first NUL, at most [n]. *)
Fixpoint strnlen (s : list byte) (n : nat) : nat :=
  match n, s with
  | S n', c :: s' => if is_nul c then O else S (strnlen s' n')
  | _, _ => O
  end.

(** [strncpy(dst, src, n)] into an array of [n] bytes: the bytes of the C
    string [src] up to its end, at most [n] of them, then NUL padding. *)
Definition strncpy (src : list byte) (n : nat) : list byte :=
  let k := strnlen src n in
  firstn k src ++ repeat Byte.x00 (n - k).

(** ** Message header enumerations: [struct CMessageFields] *)

Module CMessageFields.
Definition MESSAGE_START_SIZE : nat := 4.
Definition COMMAND_SIZE : nat := 12.
Definition CHECKSUM_SIZE : nat := 4.
Definition BASIC_MESSAGE_SIZE_SIZE : nat := 4.
Definition BASIC_MESSAGE_SIZE_OFFSET : nat := MESSAGE_START_SIZE + COMMAND_SIZE.
Definition CHECKSUM_OFFSET : nat := BASIC_MESSAGE_SIZE_OFFSET + BASIC_MESSAGE_SIZE_SIZE.
Definition BASIC_COMMAND_OFFSET : nat := MESSAGE_START_SIZE.
Definition EXTENDED_MESSAGE_SIZE_SIZE : nat := 8.
Definition BASIC_HEADER_SIZE : nat :=
  MESSAGE_START_SIZE + COMMAND_SIZE + BASIC_MESSAGE_SIZE_SIZE + CHECKSUM_SIZE.
Definition EXTENDED_HEADER_SIZE : nat :=
  MESSAGE_START_SIZE + COMMAND_SIZE + BASIC_MESSAGE_SIZE_SIZE + CHECKSUM_SIZE
  + COMMAND_SIZE + EXTENDED_MESSAGE_SIZE_SIZE.
End CMessageFields.

(** [std::string(pch, pch + strnlen(pch, COMMAND_SIZE))]: the command held
    in a 12-byte array, up to its NUL padding. *)
Definition command_string (pch : list byte) : list byte :=
  firstn (strnlen pch CMessageFields.COMMAND_SIZE) pch.

(** A printable ASCII character, [' '] to ['~']. *)
Definition printable (c : byte) : bool :=
  (0x20 <=? byte.unsigned c) && (byte.unsigned c <=? 0x7E).

(** Modelled from the spec: a command is well formed when it is a
    printable token followed by NUL bytes only (a token of 12 characters
    fills the array and has no padding). *)
Fixpoint CheckCommand (s : list byte) : bool :=
  match s with
  | [] => true
  | c :: s' => if is_nul c then forallb is_nul s' else printable c && CheckCommand s'
  end.

(** A command token: at most 12 printable characters. *)
Definition valid_command (command : list byte) : Prop :=
  (length command <= CMessageFields.COMMAND_SIZE)%nat
  /\ forallb printable command = true.

Fixpoint bytes_eqb (a b : list byte) : bool :=
  match a, b with
  | [], [] => true
  | x :: a', y :: b' => Byte.eqb x y && bytes_eqb a' b'
  | _, _ => false
  end.

(** ** Configuration *)

(** [class Config] is only forward-declared in protocol.h.  The framing
    code consumes from it the network magic and, through
    [NetMsgType::GetMaxMessageLength(command, config)] (declared in
    protocol.h, defined elsewhere), the maximum payload length of a
    command. *)
Class Config : Type := {
  NetMagic : list byte;
  NetMagic_length : length NetMagic = CMessageFields.MESSAGE_START_SIZE;
  GetMaxMessageLength : list byte -> Z
}.

(** [NetMsgType::EXTMSG], the command of the basic part of an extended
    header ("extmsg"). *)
Definition EXTMSG : list byte :=
  [Byte.x65; Byte.x78; Byte.x74; Byte.x6d; Byte.x73; Byte.x67].

(** ** Double SHA-256: [class CHash256] *)

(** Modelled from the spec: hash.h is not part of the sources at hand.  The
    specification describes a running cryptographic hash that is extended
    with the bytes appended and finalised once; it is modelled by the
    sequence of bytes written so far, to which finalisation applies the
    (unspecified) double hash function [Hash256]. *)
Class CHash256 {U : Uint256} : Type := {
  Hash256 : list byte -> uint256
}.

(** ** Extended message header: [class CExtendedMessageHeader] *)

Module CExtendedMessageHeader.

(** [std::array<char, COMMAND_SIZE> pchCommand {};]
    [uint64_t nPayloadLength { std::numeric_limits<uint64_t>::max() };] *)
Record t : Type := mk {
  pchCommand : list byte;
  nPayloadLength : Z
}.

(** [CExtendedMessageHeader() = default] *)
Definition default : t := mk (repeat Byte.x00 CMessageFields.COMMAND_SIZE) UINT64_MAX.

(** Modelled from the spec: the constructor
    [CExtendedMessageHeader(pszCommand, nPayloadLengthIn)] is declared in
    protocol.h and defined elsewhere; it stores the command, NUL-padded to
    12 bytes, and the 8-byte payload length. *)
Definition make (pszCommand : list byte) (nPayloadLengthIn : Z) : t :=
  mk (strncpy pszCommand CMessageFields.COMMAND_SIZE) (wrap64 nPayloadLengthIn).

(** [SerializationOp], writing:
    [READWRITE(FLATDATA(pchCommand)); READWRITE(nPayloadLength);] *)
Definition Serialize (e : t) : list byte :=
  pchCommand e
  ++ ByteStream.ser_writedata CMessageFields.EXTENDED_MESSAGE_SIZE_SIZE (nPayloadLength e).

(** [SerializationOp], reading. *)
Definition Unserialize (e : t) (s : list byte) : Exc (t * list byte) :=
  '(cmd, s) <- ByteStream.read CMessageFields.COMMAND_SIZE s ;;
  '(len, s) <- ByteStream.ser_readdata CMessageFields.EXTENDED_MESSAGE_SIZE_SIZE s ;;
  Return (mk cmd len, s).

Definition GetPayloadLength (e : t) : Z := nPayloadLength e.

(** The values the C++ members can hold: an array of 12 characters and a
    [uint64_t]. *)
Definition well_formed (e : t) : Prop :=
  length (pchCommand e) = CMessageFields.COMMAND_SIZE
  /\ 0 <= nPayloadLength e < 2 ^ 64.

(** Modelled from the spec: [IsValid] and [IsOversized] of the extended
    fields are declared in protocol.h and defined elsewhere.  The command
    must be a printable token with NUL padding; the declared length must
    not exceed the maximum the registry computes for the command. *)
Definition IsValid (e : t) : bool := CheckCommand (pchCommand e).

Definition GetCommand (e : t) : list byte := command_string (pchCommand e).

Definition IsOversized {C : Config} (e : t) : bool :=
  nPayloadLength e >? GetMaxMessageLength (GetCommand e).

End CExtendedMessageHeader.

(** ** Message header: [class CMessageHeader] *)

Module CMessageHeader.

(** [MessageMagic pchMessageStart {};]
    [std::array<char, COMMAND_SIZE> pchCommand {};]
    [uint32_t nPayloadLength { std::numeric_limits<uint32_t>::max() };]
    [Checksum pchChecksum {};]
    [std::optional<CExtendedMessageHeader> extendedFields { std::nullopt };]
    [bool complete {false};] *)
Record t : Type := mk {
  pchMessageStart : list byte;
  pchCommand : list byte;
  nPayloadLength : Z;
  pchChecksum : list byte;
  extendedFields : option CExtendedMessageHeader.t;
  complete : bool
}.

(** [CMessageHeader(const MessageMagic& pchMessageStartIn)]: the other
    members keep their default initialisers. *)
Definition init (pchMessageStartIn : list byte) : t :=
  mk pchMessageStartIn
     (repeat Byte.x00 CMessageFields.COMMAND_SIZE)
     UINT32_MAX
     (repeat Byte.x00 CMessageFields.CHECKSUM_SIZE)
     None
     false.

(** [bool IsExtended() const { return extendedFields.has_value(); }] *)
Definition IsExtended (h : t) : bool :=
  match extendedFields h with
  | Some _ => true
  | None => false
  end.

(** [bool Complete() const { return complete; }] *)
Definition Complete (h : t) : bool := complete h.

(** The values the C++ members can hold: arrays of 4, 12 and 4 bytes, a
    [uint32_t], and extended fields that are well formed. *)
Definition well_formed (h : t) : Prop :=
  length (pchMessageStart h) = CMessageFields.MESSAGE_START_SIZE
  /\ length (pchCommand h) = CMessageFields.COMMAND_SIZE
  /\ 0 <= nPayloadLength h < 2 ^ 32
  /\ length (pchChecksum h) = CMessageFields.CHECKSUM_SIZE
  /\ match extendedFields h with
     | Some e => CExtendedMessageHeader.well_formed e
     | None => True
     end.

(** [SerializationOp], writing: magic, command, length and checksum,
    then the extended fields [if(IsExtended())]. *)
Definition Serialize_basic (h : t) : list byte :=
  pchMessageStart h
  ++ pchCommand h
  ++ ByteStream.ser_writedata CMessageFields.BASIC_MESSAGE_SIZE_SIZE (nPayloadLength h)
  ++ pchChecksum h.

Definition Serialize (h : t) : list byte :=
  Serialize_basic h
  ++ match extendedFields h with
     | Some e => CExtendedMessageHeader.Serialize e
     | None => []
     end.

(** [SerializationOp], reading into [h]: the four basic fields are read,
    and the extended fields only when [h] already holds some
    ([IsExtended()] looks at [extendedFields], not at the length read). *)
Definition Unserialize (h : t) (s : list byte) : Exc (t * list byte) :=
  '(magic, s) <- ByteStream.read CMessageFields.MESSAGE_START_SIZE s ;;
  '(cmd, s) <- ByteStream.read CMessageFields.COMMAND_SIZE s ;;
  '(len, s) <- ByteStream.ser_readdata CMessageFields.BASIC_MESSAGE_SIZE_SIZE s ;;
  '(sum, s) <- ByteStream.read CMessageFields.CHECKSUM_SIZE s ;;
  match extendedFields h with
  | Some e =>
      '(e, s) <- CExtendedMessageHeader.Unserialize e s ;;
      Return (mk magic cmd len sum (Some e) (complete h), s)
  | None => Return (mk magic cmd len sum None (complete h), s)
  end.

(** *** Members declared in protocol.h and defined elsewhere *)

(** Modelled from the spec: [static bool IsExtended(uint64_t payloadSize)]
    is declared in protocol.h and defined elsewhere.  Extended framing is
    chosen when the payload length exceeds the range of the 4-byte length
    field or is the sentinel value itself. *)
Definition IsExtendedPayload (payloadSize : Z) : bool :=
  (payloadSize >? UINT32_MAX) || (payloadSize =? UINT32_MAX).

(** Modelled from the spec: [GetHeaderSizeForPayload], defined elsewhere;
    24 bytes of basic header, 44 with the extended fields. *)
Definition GetHeaderSizeForPayload (payloadSize : Z) : Z :=
  if IsExtendedPayload payloadSize
  then Z.of_nat CMessageFields.EXTENDED_HEADER_SIZE
  else Z.of_nat CMessageFields.BASIC_HEADER_SIZE.

(** Modelled from the spec: the private constructor
    [CMessageHeader(pchMessageStartIn, pszCommand, nPayloadLengthIn,
    payloadHash)], defined elsewhere.  The checksum is the first four
    bytes of the payload hash.  With extended framing the basic command
    is the "extmsg" marker, the basic length is the sentinel, and command
    and length go to the extended fields. *)
Definition make {U : Uint256} (pchMessageStartIn pszCommand : list byte)
    (nPayloadLengthIn : Z) (payloadHash : uint256) : t :=
  let sum := firstn CMessageFields.CHECKSUM_SIZE (u256_begin payloadHash) in
  if IsExtendedPayload nPayloadLengthIn then
    mk pchMessageStartIn
       (strncpy EXTMSG CMessageFields.COMMAND_SIZE)
       UINT32_MAX
       sum
       (Some (CExtendedMessageHeader.make pszCommand nPayloadLengthIn))
       false
  else
    mk pchMessageStartIn
       (strncpy pszCommand CMessageFields.COMMAND_SIZE)
       (wrap32 nPayloadLengthIn)
       sum
       None
       false.

(** Modelled from the spec: [GetPayloadLength], defined elsewhere.  When
    the extended fields are present their length is authoritative. *)
Definition GetPayloadLength (h : t) : Z :=
  match extendedFields h with
  | Some e => CExtendedMessageHeader.GetPayloadLength e
  | None => nPayloadLength h
  end.

(** Modelled from the spec: [GetLength], defined elsewhere; the size of
    the header itself. *)
Definition GetLength (h : t) : Z :=
  if IsExtended h
  then Z.of_nat CMessageFields.EXTENDED_HEADER_SIZE
  else Z.of_nat CMessageFields.BASIC_HEADER_SIZE.

(** Modelled from the spec: [GetCommand], defined elsewhere; the command
    up to its NUL padding, taken from the extended fields when present. *)
Definition GetCommand (h : t) : list byte :=
  match extendedFields h with
  | Some e => CExtendedMessageHeader.GetCommand e
  | None => command_string (pchCommand h)
  end.

(** Modelled from the spec: [CheckHeaderMagicAndCommand] and [IsValid],
    defined elsewhere: the magic is the one given and the command is a
    printable, NUL-padded token; extended fields must be valid too. *)
Definition CheckHeaderMagicAndCommand (h : t) (magic : list byte) : bool :=
  bytes_eqb (pchMessageStart h) magic && CheckCommand (pchCommand h).

Definition IsValid {C : Config} (h : t) : bool :=
  CheckHeaderMagicAndCommand h NetMagic
  && match extendedFields h with
     | Some e => CExtendedMessageHeader.IsValid e
     | None => true
     end.

(** Modelled from the spec: [IsOversized], defined elsewhere: the declared
    payload length exceeds the maximum computed for the command; a
    function of the header fields and the configuration only. *)
Definition IsOversized {C : Config} (h : t) : bool :=
  match extendedFields h with
  | Some e => CExtendedMessageHeader.IsOversized e
  | None => nPayloadLength h >? GetMaxMessageLength (command_string (pchCommand h))
  end.

(** The length field of a basic header held in [buff]. *)
Definition basic_length_field (buff : list byte) : Z :=
  le_combine (firstn CMessageFields.BASIC_MESSAGE_SIZE_SIZE
                (skipn CMessageFields.BASIC_MESSAGE_SIZE_OFFSET buff)).

(** The buffer while a header is incomplete: less than a basic header, or
    a basic header with the sentinel length and less than an extended
    header. *)
Definition pending (buff : list byte) : Prop :=
  (length buff < CMessageFields.BASIC_HEADER_SIZE)%nat
  \/ (basic_length_field buff = UINT32_MAX
      /\ (length buff < CMessageFields.EXTENDED_HEADER_SIZE)%nat).

(** Move bytes from [pch] to [buff] until [buff] holds [target] bytes or
    [pch] is used up; the second component counts the bytes moved. *)
Definition fill (target : nat) (buff pch : list byte) : list byte * nat :=
  let n := Nat.min (target - length buff) (length pch) in
  (buff ++ firstn n pch, n).

Definition set_complete (h : t) : t :=
  mk (pchMessageStart h) (pchCommand h) (nPayloadLength h) (pchChecksum h)
     (extendedFields h) true.

Definition with_extended (h : t) : t :=
  mk (pchMessageStart h) (pchCommand h) (nPayloadLength h) (pchChecksum h)
     (Some CExtendedMessageHeader.default) (complete h).

(** Modelled from the spec: [Read(pch, numBytes, buff)] is declared in
    protocol.h and defined elsewhere.  Bytes are gathered in [buff] until
    a basic header is there; when its length field is the sentinel, until
    the extended header is there; then the header is deserialised from
    [buff] and marked complete.  The result is the header, the buffer and
    the number of bytes taken from [pch].  While bytes are missing the
    header stays incomplete and all of [pch] is taken.  [Read_after_basic]
    is the part of [Read] that runs once [buff] holds a basic header,
    [n1] bytes having been taken to get there. *)
Definition Read_after_basic (h : t) (pch buff : list byte) (n1 : nat)
  : Exc (t * list byte * nat) :=
  if basic_length_field buff =? UINT32_MAX then
    let '(buff, n2) := fill CMessageFields.EXTENDED_HEADER_SIZE buff pch in
    if (length buff <? CMessageFields.EXTENDED_HEADER_SIZE)%nat
    then Return (h, buff, (n1 + n2)%nat)
    else
      '(h, rest) <- Unserialize (with_extended h) buff ;;
      Return (set_complete h, rest, (n1 + n2)%nat)
  else
    '(h, rest) <- Unserialize h buff ;;
    Return (set_complete h, rest, n1).

(** Modelled from the spec: [Read(pch, numBytes, buff)] itself: gather the
    basic header, report an incomplete header while it is not there, then
    go on with [Read_after_basic]. *)
Definition Read (h : t) (pch buff : list byte) : Exc (t * list byte * nat) :=
  let '(buff, n1) := fill CMessageFields.BASIC_HEADER_SIZE buff pch in
  if (length buff <? CMessageFields.BASIC_HEADER_SIZE)%nat then Return (h, buff, n1)
  else Read_after_basic h (skipn n1 pch) buff n1.

(** A result of [Read] after [k] bytes that were taken before. *)
Definition shift (k : nat) (r : Exc (t * list byte * nat)) : Exc (t * list byte * nat) :=
  '(h, buff, n) <- r ;;
  Return (h, buff, (k + n)%nat).

(** A result of [Read], followed by a [Read] of the bytes [b] when the
    header is still incomplete. *)
Definition then_Read (r : Exc (t * list byte * nat)) (b : list byte)
  : Exc (t * list byte * nat) :=
  match r with
  | Return (h1, buff1, n1) =>
      if complete h1 then r else shift n1 (Read h1 b buff1)
  | Throw e => Throw e
  end.

End CMessageHeader.

(** ** Incoming message assembler: [class CNetMessage] *)

Module CNetMessage.
Section WithContext.
Context {U : Uint256} {H : CHash256} {C : Config}.

(** [mutable CHash256 hasher {}; mutable uint256 data_hash {};]
    [CDataStream dataBuff; CMessageHeader hdr; int64_t nTime {0};]
    The hasher is the sequence of bytes written to it; the memoised hash
    is absent until it is finalised. *)
Record t : Type := mk {
  hasher : list byte;
  data_hash : option uint256;
  dataBuff : list byte;
  hdr : CMessageHeader.t;
  nTime : Z
}.

(** [CNetMessage(pchMessageStartIn, nTypeIn, nVersionIn)]; stream type and
    version play no part in framing. *)
Definition init (pchMessageStartIn : list byte) : t :=
  mk [] None [] (CMessageHeader.init pchMessageStartIn) 0.

(** [Complete()]:
    [if (!hdr.Complete()) return false;]
    [return (hdr.GetPayloadLength() == dataBuff.size());] *)
Definition Complete (m : t) : bool :=
  if negb (CMessageHeader.Complete (hdr m)) then false
  else CMessageHeader.GetPayloadLength (hdr m) =? Z.of_nat (length (dataBuff m)).

(** The states the assembler goes through.  While the header is
    incomplete the buffer holds a part of it; afterwards it holds no more
    than the declared payload. *)
Definition well_formed (m : t) : Prop :=
  if CMessageHeader.Complete (hdr m)
  then Z.of_nat (length (dataBuff m)) <= CMessageHeader.GetPayloadLength (hdr m)
  else CMessageHeader.pending (dataBuff m).

Definition GetHeader (m : t) : CMessageHeader.t := hdr m.
Definition GetTime (m : t) : Z := nTime m.
Definition SetTime (m : t) (time : Z) : t :=
  mk (hasher m) (data_hash m) (dataBuff m) (hdr m) time.
Definition GetData (m : t) : list byte := dataBuff m.

(** Modelled from the spec: [GetMessageHash], declared in net_message.h
    and defined elsewhere, finalises the running hash on the first call
    and memoises it. *)
Definition GetMessageHash (m : t) : uint256 * t :=
  match data_hash m with
  | Some h => (h, m)
  | None =>
      let h := Hash256 (hasher m) in
      (h, mk (hasher m) (Some h) (dataBuff m) (hdr m) (nTime m))
  end.

(** Modelled from the spec: [GetTotalLength], defined elsewhere: header
    size plus payload size. *)
Definition GetTotalLength (m : t) : Z :=
  CMessageHeader.GetLength (hdr m) + CMessageHeader.GetPayloadLength (hdr m).

Definition invalid_header : string := "Invalid header".
Definition oversized_header : string := "Oversized header".

(** Modelled from the spec: [Read(config, pch, nBytes)], declared in
    net_message.h and defined elsewhere.  While the header is incomplete
    the bytes go to the header codec; once it has parsed a header,
    validity and size are checked at once and a failure bans the peer.
    With a complete header the bytes are appended to the payload buffer,
    up to the declared length, and written to the running hash.  The
    result is the new state and the number of bytes consumed. *)
Definition Read (m : t) (pch : list byte) : Exc (t * nat) :=
  if negb (CMessageHeader.Complete (hdr m)) then
    '(h, buff, n) <- CMessageHeader.Read (hdr m) pch (dataBuff m) ;;
    let m' := mk (hasher m) (data_hash m) buff h (nTime m) in
    if CMessageHeader.Complete h then
      if negb (CMessageHeader.IsValid h) then Throw (BanPeer invalid_header)
      else if CMessageHeader.IsOversized h then Throw (BanPeer oversized_header)
      else Return (m', n)
    else Return (m', n)
  else
    let remaining :=
      CMessageHeader.GetPayloadLength (hdr m) - Z.of_nat (length (dataBuff m)) in
    let n := Z.to_nat (Z.min remaining (Z.of_nat (length pch))) in
    let bytes := firstn n pch in
    Return (mk (hasher m ++ bytes) (data_hash m) (dataBuff m ++ bytes) (hdr m) (nTime m), n).

(** Modelled from the spec: the receive path that calls [Read] lies
    outside the sources at hand.  Feeding a chunk of received bytes calls
    [Read] on what is left of the chunk until the chunk is used up or the
    message is complete (the message is then handed on and must not be
    fed again).  Every call consumes a byte, so [fuel] as large as the
    chunk is enough; [None] says the fuel ran out. *)
Fixpoint feed_loop (fuel : nat) (m : t) (pch : list byte) : option (Exc t) :=
  match pch with
  | [] => Some (Return m)
  | _ :: _ =>
      if Complete m then Some (Return m)
      else
        match fuel with
        | O => None
        | S fuel' =>
            match Read m pch with
            | Throw e => Some (Throw e)
            | Return (m', handled) => feed_loop fuel' m' (skipn handled pch)
            end
        end
  end.

Definition feed (m : t) (pch : list byte) : option (Exc t) :=
  feed_loop (length pch) m pch.

(** Going on after a feed, unless it threw. *)
Definition and_then (r : option (Exc t)) (k : t -> option (Exc t)) : option (Exc t) :=
  match r with
  | Some (Return m') => k m'
  | _ => r
  end.

(** Feeding a sequence of chunks in order; an exception ends it. *)
Fixpoint feed_chunks (m : t) (chunks : list (list byte)) : option (Exc t) :=
  match chunks with
  | [] => Some (Return m)
  | c :: cs => and_then (feed m c) (fun m' => feed_chunks m' cs)
  end.

(** What the connection reads off a message that was fed: completeness,
    payload hash and total length. *)
Definition observe (m : t) : bool * uint256 * Z :=
  (Complete m, fst (GetMessageHash m), GetTotalLength m).

(** Modelled from the spec: the send path, [encode(command, payload)]:
    the header built for the payload's length and hash, serialised, then
    the payload. *)
Definition encode (command payload : list byte) : list byte :=
  CMessageHeader.Serialize
    (CMessageHeader.make NetMagic command (Z.of_nat (length payload)) (Hash256 payload))
  ++ payload.

End WithContext.
End CNetMessage.
Arguments CNetMessage.t {U}.

(** ** Writing to byte streams *)

(** Modelled from the spec: the writing side of serialize.h, with the
    layouts of [ByteStream]: a variable-length count in its shortest form,
    and a string as its length followed by its bytes. *)
Module ByteWriter.

Definition WriteCompactSize (n : Z) : list byte :=
  if n <? 253 then ByteStream.ser_writedata 1 n
  else if n <=? 0xFFFF then Byte.xfd :: ByteStream.ser_writedata 2 n
  else if n <=? 0xFFFFFFFF then Byte.xfe :: ByteStream.ser_writedata 4 n
  else Byte.xff :: ByteStream.ser_writedata 8 n.

Definition WriteString (str : list byte) : list byte :=
  WriteCompactSize (Z.of_nat (length str)) ++ str.

End ByteWriter.

(** ** Encoders and decoders of field values *)

(** What [READWRITE] does to a field of type [V] on a byte stream:
    [enc] gives the bytes written, [dec] reads a value off the front of
    the stream or throws.  serialize.h, which fixes the formats, is not
    part of the sources at hand, so that a format is a parameter, of
    which only [codec_ok] is asked: on the values in [dom], reading gives
    back what was written and leaves what follows. *)
Record Codec (V : Type) : Type := mkCodec {
  enc : V -> list byte;
  dec : list byte -> Exc (V * list byte)
}.
Arguments mkCodec {V} enc dec.
Arguments enc {V} c v.
Arguments dec {V} c s.

Definition codec_ok {V : Type} (c : Codec V) (dom : V -> Prop) : Prop :=
  forall (v : V) (rest : list byte), dom v -> dec c (enc c v ++ rest) = Return (v, rest).

Definition is_uint32 (v : Z) : Prop := 0 <= v < 2 ^ 32.
Definition is_uint64 (v : Z) : Prop := 0 <= v < 2 ^ 64.

(** The byte-stream formats as codecs. *)
Definition compact_size_codec : Codec Z :=
  mkCodec ByteWriter.WriteCompactSize ByteStream.ReadCompactSize.
Definition uint32_codec : Codec Z :=
  mkCodec (ByteStream.ser_writedata 4) (ByteStream.ser_readdata 4).
Definition uint64_codec : Codec Z :=
  mkCodec (ByteStream.ser_writedata 8) (ByteStream.ser_readdata 8).
Definition limited_string_codec (limit : Z) : Codec (list byte) :=
  mkCodec ByteWriter.WriteString (ByteStream.ReadLimitedString limit).

(** ** Inventory descriptor on the wire *)

(** [CInv::SerializationOp], writing: [READWRITE(type); READWRITE(hash);],
    with the formats of [ByteStream]: the type on four bytes, least
    significant first, then the hash as its 32 bytes. *)
Definition CInv_Serialize {U : Uint256} (a : CInv.t) : list byte :=
  ByteStream.ser_writedata 4 (CInv.type a) ++ u256_begin (CInv.hash a).

(** ** Protoconf on the wire *)

(** [CProtoconf::SerializationOp] with a writing [ser_action]; the three
    formats are parameters.  An object without fields throws, as it does
    when read. *)
Definition CProtoconf_Serialize (count_c length_c : Codec Z) (policies_c : Codec (list byte))
    (obj : CProtoconf.t) : Exc (list byte) :=
  let out := enc count_c (CProtoconf.numberOfFields obj) in
  if CProtoconf.numberOfFields obj >? 0 then
    let out := out ++ enc length_c (CProtoconf.maxRecvPayloadLength obj) in
    if CProtoconf.numberOfFields obj >? 1 then
      Return (out ++ enc policies_c (CProtoconf.streamPolicies obj))
    else Return out
  else Throw (ios_base_failure CProtoconf.zero_fields_message).

(** The reads of [CProtoconf::SerializationOp] through codecs. *)
Definition codec_stream (count_c length_c : Codec Z) (policies_c : Z -> Codec (list byte))
  : ReadStream (list byte) := {|
  ReadCompactSize := dec count_c;
  ReadUint32 := dec length_c;
  ReadLimitedString := fun limit => dec (policies_c limit)
|}.

(** ** Service flags: [enum ServiceFlags : uint64_t] *)

Inductive ServiceFlag : Type :=
| NODE_NONE
| NODE_NETWORK
| NODE_GETUTXO
| NODE_BLOOM
| NODE_XTHIN
| NODE_MVC_CASH.

Definition ServiceFlag_value (f : ServiceFlag) : Z :=
  match f with
  | NODE_NONE => 0
  | NODE_NETWORK => Z.shiftl 1 0
  | NODE_GETUTXO => Z.shiftl 1 1
  | NODE_BLOOM => Z.shiftl 1 2
  | NODE_XTHIN => Z.shiftl 1 4
  | NODE_MVC_CASH => Z.shiftl 1 5
  end.

(** ** Peer address: [class CAddress] *)

Module CAddress.
Section WithService.

(** [CService] (net/netaddress.h) and its serialisation are not part of
    the sources at hand; the type and its format are parameters, and so
    are the formats of [int], [unsigned int] and [uint64_t]. *)
Context {CService : Type}.
Variable service_c : Codec CService.
Variables int_c uint_c uint64_c : Codec Z.

(** [SER_DISK] and [SER_GETHASH] (serialize.h) and [CADDR_TIME_VERSION]
    (version.h) are not part of the sources at hand. *)
Variables SER_DISK SER_GETHASH CADDR_TIME_VERSION : Z.

(** [class CAddress : public CService] with
    [ServiceFlags nServices{NODE_NONE}; unsigned int nTime{100000000};] *)
Record t : Type := mk {
  service : CService;
  nServices : Z;
  nTime : Z
}.

(** [CAddress(CService ipIn, ServiceFlags nServicesIn)] *)
Definition make (ipIn : CService) (nServicesIn : Z) : t :=
  mk ipIn nServicesIn 100000000.

(** [s.GetType() & SER_DISK], as a condition. *)
Definition on_disk (nType : Z) : bool := negb (Z.land nType SER_DISK =? 0).

(** [(s.GetType() & SER_DISK) ||
     (nVersion >= CADDR_TIME_VERSION && !(s.GetType() & SER_GETHASH))] *)
Definition with_time (nType nVersion : Z) : bool :=
  on_disk nType
  || ((nVersion >=? CADDR_TIME_VERSION) && negb (negb (Z.land nType SER_GETHASH =? 0))).

(** [SerializationOp], writing to a stream of type [nType] and version
    [nVersion]. *)
Definition Serialize (nType nVersion : Z) (obj : t) : list byte :=
  (if on_disk nType then enc int_c nVersion else [])
  ++ (if with_time nType nVersion then enc uint_c (nTime obj) else [])
  ++ enc uint64_c (nServices obj)
  ++ enc service_c (service obj).

(** [SerializationOp], reading from a stream of type [nType] and version
    [nVersion] into [obj]. *)
Definition Unserialize (nType nVersion : Z) (obj : t) (s : list byte)
  : Exc (t * list byte) :=
  '(nVersion, s) <- (if on_disk nType then dec int_c s else Return (nVersion, s)) ;;
  '(time, s) <- (if with_time nType nVersion then dec uint_c s
                 else Return (nTime obj, s)) ;;
  '(nServicesInt, s) <- dec uint64_c s ;;
  '(svc, s) <- dec service_c s ;;
  Return (mk svc nServicesInt time, s).

End WithService.
End CAddress.

(** Modelled from the spec: an [int] on the byte stream, four bytes, least
    significant first, in two's complement. *)
Definition int32_codec : Codec Z :=
  mkCodec (ByteStream.ser_writedata 4)
          (fun s => '(v, s) <- ByteStream.ser_readdata 4 s ;;
                    Return (if v <? 2 ^ 31 then v else v - 2 ^ 32, s)).

Definition is_int32 (v : Z) : Prop := - 2 ^ 31 <= v < 2 ^ 31.

(** A stand-in for [CService]: 16 bytes of address and 2 of port, written
    as they are. *)
Definition bytes18_codec : Codec (list byte) :=
  mkCodec (fun v => v) (ByteStream.read 18).

(** ** Instances to evaluate the definitions on *)

(** 256-bit blobs read as numbers. *)
#[export, refine] Instance Z_uint256 : Uint256 := {
  uint256 := Z;
  u256_eqb := Z.eqb;
  u256_ltb := Z.ltb;
  u256_begin := le_split 32
}.
Proof.
  - intros a. apply length_le_split.
  - intros a b. apply Z.eqb_eq.
  - intros a. apply Z.ltb_irrefl.
  - intros a b c. rewrite !Z.ltb_lt. lia.
  - intros a b. rewrite !Z.ltb_ge. lia.
Defined.

(** A stand-in for the double hash, enough to run the definitions. *)
#[export] Instance toy_hash : CHash256 (U := Z_uint256) := {
  Hash256 := fun bytes => le_combine (firstn 32 bytes) + Z.of_nat (length bytes)
}.

(** The main network's magic, and the default maximum of 2 MiB
    ([DEFAULT_MAX_PROTOCOL_RECV_PAYLOAD_LENGTH]) for every command. *)
#[export] Instance test_config : Config := {
  NetMagic := [Byte.xe3; Byte.xe1; Byte.xf3; Byte.xe8];
  NetMagic_length := eq_refl;
  GetMaxMessageLength := fun _ => 2 * 1024 * 1024
}.

(** Two headers to run the definitions on: "ping" with 8 bytes of
    payload, and an extended header for a "block" of five billion bytes. *)
Definition sample_header : CMessageHeader.t :=
  CMessageHeader.mk
    [Byte.xe3; Byte.xe1; Byte.xf3; Byte.xe8]
    (strncpy [Byte.x70; Byte.x69; Byte.x6e; Byte.x67] CMessageFields.COMMAND_SIZE)
    8
    [Byte.x01; Byte.x02; Byte.x03; Byte.x04]
    None
    false.

Definition sample_extended_header : CMessageHeader.t :=
  CMessageHeader.mk
    [Byte.xe3; Byte.xe1; Byte.xf3; Byte.xe8]
    (strncpy EXTMSG CMessageFields.COMMAND_SIZE)
    UINT32_MAX
    [Byte.x00; Byte.x00; Byte.x00; Byte.x00]
    (Some (CExtendedMessageHeader.mk
             (strncpy [Byte.x62; Byte.x6c; Byte.x6f; Byte.x63; Byte.x6b]
                CMessageFields.COMMAND_SIZE)
             5000000000))
    false.

(** An extended header for a "ping" that declares 2097153 bytes. *)
Definition oversized_extended_header : CMessageHeader.t :=
  CMessageHeader.mk
    [Byte.xe3; Byte.xe1; Byte.xf3; Byte.xe8]
    (strncpy EXTMSG CMessageFields.COMMAND_SIZE)
    UINT32_MAX
    [Byte.x00; Byte.x00; Byte.x00; Byte.x00]
    (Some (CExtendedMessageHeader.mk
             (strncpy [Byte.x70; Byte.x69; Byte.x6e; Byte.x67]
                CMessageFields.COMMAND_SIZE)
             2097153))
    false.

(* ===================================================================== *)
(** * Part II. Properties                                                  *)
(* ===================================================================== *)

(** ** Inventory descriptor *)

Section CInvFacts.
Context {U : Uint256}.
Implicit Types a b c : CInv.t.

Lemma operator_lt_irrefl a : CInv.operator_lt a a = false.
Proof.
  unfold CInv.operator_lt.
  now rewrite Z.ltb_irrefl, Z.eqb_refl, u256_ltb_irrefl.
Qed.

Lemma operator_lt_trans a b c :
  CInv.operator_lt a b = true -> CInv.operator_lt b c = true ->
  CInv.operator_lt a c = true.
Proof.
  unfold CInv.operator_lt.
  rewrite !orb_true_iff, !andb_true_iff, !Z.ltb_lt, !Z.eqb_eq.
  intros [Hab | [Hab Hh1]] [Hbc | [Hbc Hh2]].
  - left; lia.
  - left; lia.
  - left; lia.
  - right; split; [lia | eapply u256_ltb_trans; eassumption].
Qed.

Lemma operator_lt_total a b :
  CInv.operator_lt a b = false -> CInv.operator_lt b a = false -> a = b.
Proof.
  destruct a as [ta ha], b as [tb hb]; unfold CInv.operator_lt; cbn.
  rewrite !orb_false_iff, !andb_false_iff, !Z.ltb_ge, !Z.eqb_neq.
  intros [H1 H2] [H3 H4].
  assert (ta = tb) by lia; subst tb.
  f_equal. apply u256_ltb_total.
  - destruct H2; [lia | assumption].
  - destruct H4; [lia | assumption].
Qed.

Lemma operator_lt_asym a b :
  CInv.operator_lt a b = true -> CInv.operator_lt b a = false.
Proof.
  intros Hab. destruct (CInv.operator_lt b a) eqn:Hba; [ | reflexivity].
  pose proof (operator_lt_trans _ _ _ Hab Hba) as Haa.
  now rewrite operator_lt_irrefl in Haa.
Qed.

Lemma operator_eq_fields a b :
  CInv.operator_eq a b = true <-> CInv.type a = CInv.type b /\ CInv.hash a = CInv.hash b.
Proof.
  unfold CInv.operator_eq.
  now rewrite andb_true_iff, Z.eqb_eq, u256_eqb_eq.
Qed.

Lemma operator_eq_eq a b : CInv.operator_eq a b = true <-> a = b.
Proof.
  rewrite operator_eq_fields. split.
  - destruct a, b; cbn; intros [-> ->]; reflexivity.
  - intros ->; split; reflexivity.
Qed.

(** *** Sorting *)

Lemma insert_perm a l : Permutation (CInv.insert a l) (a :: l).
Proof.
  induction l as [ | y l IH]; cbn.
  - apply Permutation_refl.
  - destruct (CInv.operator_lt y a).
    + eapply perm_trans; [apply perm_skip, IH | apply perm_swap].
    + apply Permutation_refl.
Qed.

Lemma sort_perm l : Permutation (CInv.sort l) l.
Proof.
  induction l as [ | x l IH]; cbn.
  - apply perm_nil.
  - eapply perm_trans; [apply insert_perm | apply perm_skip, IH].
Qed.

Lemma ascending_cons a b l :
  CInv.ascending (a :: b :: l) = CInv.operator_lt a b && CInv.ascending (b :: l).
Proof. reflexivity. Qed.

Lemma ascending_tail a l : CInv.ascending (a :: l) = true -> CInv.ascending l = true.
Proof.
  destruct l as [ | y l]; cbn; [reflexivity | ].
  rewrite andb_true_iff. tauto.
Qed.

(** The head of an ascending sequence is below every later element. *)
Lemma ascending_head a l :
  CInv.ascending (a :: l) = true -> forall b, In b l -> CInv.operator_lt a b = true.
Proof.
  revert a. induction l as [ | y l IH]; intros a Hasc b Hin; [destruct Hin | ].
  cbn in Hasc. apply andb_true_iff in Hasc as [Hay Hrest].
  destruct Hin as [-> | Hin]; [assumption | ].
  eapply operator_lt_trans; [exact Hay | ].
  apply IH; assumption.
Qed.

Lemma insert_ascending a l :
  CInv.ascending l = true -> ~ In a l -> CInv.ascending (CInv.insert a l) = true.
Proof.
  induction l as [ | y l IH]; intros Hasc Hnin; [reflexivity | ].
  cbn [CInv.insert].
  destruct (CInv.operator_lt y a) eqn:Hya.
  - assert (Hl : CInv.ascending (CInv.insert a l) = true).
    { apply IH; [eapply ascending_tail; eassumption | intros Hin; apply Hnin; now right]. }
    destruct l as [ | z l]; cbn [CInv.insert] in *.
    + cbn. now rewrite Hya.
    + rewrite ascending_cons in Hasc. apply andb_true_iff in Hasc as [Hyz _].
      destruct (CInv.operator_lt z a) eqn:Hza; rewrite ascending_cons.
      * now rewrite Hyz, Hl.
      * now rewrite Hya, Hl.
  - assert (Hay : CInv.operator_lt a y = true).
    { destruct (CInv.operator_lt a y) eqn:Hay; [reflexivity | ].
      exfalso. apply Hnin. left. symmetry. now apply operator_lt_total. }
    rewrite ascending_cons. now rewrite Hay, Hasc.
Qed.

Lemma sort_ascending l : NoDup l -> CInv.ascending (CInv.sort l) = true.
Proof.
  induction 1 as [ | x l Hnin Hnd IH]; [reflexivity | ].
  cbn. apply insert_ascending; [exact IH | ].
  intros Hin. apply Hnin. eapply Permutation_in; [apply sort_perm | exact Hin].
Qed.

(** Two ascending sequences with the same elements are the same. *)
Lemma ascending_unique l1 : forall l2,
  CInv.ascending l1 = true -> CInv.ascending l2 = true ->
  Permutation l1 l2 -> l1 = l2.
Proof.
  induction l1 as [ | x l1 IH]; intros l2 H1 H2 HP.
  - now apply Permutation_nil in HP.
  - destruct l2 as [ | y l2]; [now apply Permutation_sym, Permutation_nil in HP | ].
    assert (Hxy : x = y).
    { assert (Hx : In x (y :: l2)) by (eapply Permutation_in; [exact HP | now left]).
      assert (Hy : In y (x :: l1))
        by (eapply Permutation_in; [apply Permutation_sym; exact HP | now left]).
      destruct Hx as [Hx | Hx]; [now symmetry | ].
      destruct Hy as [Hy | Hy]; [assumption | ].
      pose proof (ascending_head _ _ H1 _ Hy) as Hlt1.
      pose proof (ascending_head _ _ H2 _ Hx) as Hlt2.
      apply operator_lt_asym in Hlt1. congruence. }
    subst y. f_equal.
    apply IH.
    + eapply ascending_tail; eassumption.
    + eapply ascending_tail; eassumption.
    + eapply Permutation_cons_inv; exact HP.
Qed.

Lemma ascending_NoDup l : CInv.ascending l = true -> NoDup l.
Proof.
  induction l as [ | x l IH]; intros Hasc; constructor.
  - intros Hin. pose proof (ascending_head _ _ Hasc _ Hin) as Hlt.
    now rewrite operator_lt_irrefl in Hlt.
  - apply IH. eapply ascending_tail; eassumption.
Qed.

Lemma sort_of_permutation l l' :
  CInv.ascending l' = true -> Permutation l l' -> CInv.sort l = l'.
Proof.
  intros Hasc HP.
  apply ascending_unique.
  - apply sort_ascending.
    eapply Permutation_NoDup; [apply Permutation_sym; exact HP | ].
    now apply ascending_NoDup.
  - exact Hasc.
  - eapply perm_trans; [apply sort_perm | exact HP].
Qed.

End CInvFacts.

Section CInvClaims.
Context {U : Uint256}.

(** C8. [operator<] on inventory items is a strict total order, by [type]
    first and by [hash] among items of equal [type]: it is irreflexive and
    transitive, and two distinct items are ordered one way or the other.
    Sorting any permutation of three items [A < B < C] gives [A; B; C].
    [operator==] holds exactly when both fields are equal. *)
Theorem CInv_order_strict_total (A B C : CInv.t) (l : list CInv.t) :
  CInv.operator_lt A B = true ->
  CInv.operator_lt B C = true ->
  Permutation l [A; B; C] ->
  CInv.sort l = [A; B; C]
  /\ (forall a, CInv.operator_lt a a = false)
  /\ (forall a b c, CInv.operator_lt a b = true -> CInv.operator_lt b c = true ->
                    CInv.operator_lt a c = true)
  /\ (forall a b, CInv.operator_lt a b = true \/ a = b \/ CInv.operator_lt b a = true)
  /\ (forall a b, CInv.type a < CInv.type b -> CInv.operator_lt a b = true)
  /\ (forall a b, CInv.type a = CInv.type b ->
                  CInv.operator_lt a b = u256_ltb (CInv.hash a) (CInv.hash b))
  /\ (forall a b, CInv.type b < CInv.type a -> CInv.operator_lt a b = false)
  /\ (forall a b, CInv.operator_eq a b = true <->
                  CInv.type a = CInv.type b /\ CInv.hash a = CInv.hash b).
Proof.
  intros HAB HBC HP.
  split; [ | split; [ | split; [ | split; [ | split; [ | split; [ | split]]]]]].
  - apply sort_of_permutation; [ | exact HP].
    cbn. now rewrite HAB, HBC.
  - apply operator_lt_irrefl.
  - apply operator_lt_trans.
  - intros a b.
    destruct (CInv.operator_lt a b) eqn:Hab; [now left | ].
    destruct (CInv.operator_lt b a) eqn:Hba; [now right; right | ].
    right; left. now apply operator_lt_total.
  - intros a b Hlt. unfold CInv.operator_lt.
    apply Z.ltb_lt in Hlt. now rewrite Hlt.
  - intros a b Heq. unfold CInv.operator_lt.
    now rewrite Heq, Z.ltb_irrefl, Z.eqb_refl.
  - intros a b Hlt. unfold CInv.operator_lt.
    replace (CInv.type a <? CInv.type b) with false by (symmetry; apply Z.ltb_ge; lia).
    replace (CInv.type a =? CInv.type b) with false by (symmetry; apply Z.eqb_neq; lia).
    reflexivity.
  - apply operator_eq_fields.
Qed.

(** C9. [IsTx] holds exactly when the masked type, [type & MSG_TYPE_MASK],
    is [MSG_TX]; [IsSomeBlock] exactly when it is [MSG_BLOCK],
    [MSG_FILTERED_BLOCK] or [MSG_CMPCT_BLOCK]; when the masked type is no
    value of the enumeration, both are false. *)
Theorem CInv_classification (a : CInv.t) :
  (CInv.IsTx a = true <-> Z.land (CInv.type a) MSG_TYPE_MASK = MSG_TX)
  /\ (CInv.IsSomeBlock a = true <->
      Z.land (CInv.type a) MSG_TYPE_MASK = MSG_BLOCK
      \/ Z.land (CInv.type a) MSG_TYPE_MASK = MSG_FILTERED_BLOCK
      \/ Z.land (CInv.type a) MSG_TYPE_MASK = MSG_CMPCT_BLOCK)
  /\ ((forall k : GetDataMsg, Z.land (CInv.type a) MSG_TYPE_MASK <> k) ->
      CInv.IsTx a = false /\ CInv.IsSomeBlock a = false).
Proof.
  unfold CInv.IsTx, CInv.IsSomeBlock, CInv.GetKind. cbv zeta.
  split; [ | split].
  - apply Z.eqb_eq.
  - rewrite !orb_true_iff, !Z.eqb_eq. tauto.
  - intros Hout. split.
    + apply Z.eqb_neq, (Hout MSG_TX).
    + rewrite !orb_false_iff, !Z.eqb_neq.
      repeat split; [apply (Hout MSG_BLOCK) | apply (Hout MSG_FILTERED_BLOCK)
                     | apply (Hout MSG_CMPCT_BLOCK)].
Qed.

(** C10. Equality and order look at the raw [type], not at the masked
    kind: for two items with the same hash whose types differ while their
    masked kinds agree (the types differ in the top three bits only),
    [operator==] is false and exactly one of [a < b], [b < a] holds, the
    one the raw types give. *)
Theorem CInv_compare_raw_type (a b : CInv.t) :
  CInv.hash a = CInv.hash b ->
  CInv.type a <> CInv.type b ->
  CInv.GetKind a = CInv.GetKind b ->
  CInv.operator_eq a b = false
  /\ CInv.operator_lt a b = (CInv.type a <? CInv.type b)
  /\ CInv.operator_lt b a = (CInv.type b <? CInv.type a)
  /\ xorb (CInv.operator_lt a b) (CInv.operator_lt b a) = true.
Proof.
  intros Hh Ht _.
  assert (E1 : (CInv.type a =? CInv.type b) = false) by now apply Z.eqb_neq.
  assert (E2 : (CInv.type b =? CInv.type a) = false) by (apply Z.eqb_neq; congruence).
  unfold CInv.operator_eq, CInv.operator_lt.
  rewrite E1, E2. cbn [andb]. rewrite !orb_false_r.
  repeat split.
  destruct (Z.ltb_spec (CInv.type a) (CInv.type b)),
           (Z.ltb_spec (CInv.type b) (CInv.type a)); cbn; try reflexivity; lia.
Qed.

End CInvClaims.

Lemma CInv_order_strict_total_witness :
  CInv.sort [@CInv.mk Z_uint256 2 0; @CInv.mk Z_uint256 1 5; @CInv.mk Z_uint256 1 9]
  = [@CInv.mk Z_uint256 1 5; @CInv.mk Z_uint256 1 9; @CInv.mk Z_uint256 2 0].
Proof.
  refine (proj1 (CInv_order_strict_total
                   (@CInv.mk Z_uint256 1 5) (@CInv.mk Z_uint256 1 9) (@CInv.mk Z_uint256 2 0)
                   [@CInv.mk Z_uint256 2 0; @CInv.mk Z_uint256 1 5; @CInv.mk Z_uint256 1 9] _ _ _)).
  - reflexivity.
  - reflexivity.
  - apply (Permutation_cons_app [_; _] []). apply Permutation_refl.
Defined.

Lemma CInv_classification_witness :
  CInv.IsTx (@CInv.mk Z_uint256 7 0) = false /\ CInv.IsSomeBlock (@CInv.mk Z_uint256 7 0) = false.
Proof.
  apply (proj2 (proj2 (CInv_classification (@CInv.mk Z_uint256 7 0)))).
  intros k; destruct k; cbn; lia.
Defined.

Lemma CInv_compare_raw_type_witness :
  CInv.operator_eq (@CInv.mk Z_uint256 1 0) (@CInv.mk Z_uint256 0x20000001 0) = false
  /\ CInv.operator_lt (@CInv.mk Z_uint256 1 0) (@CInv.mk Z_uint256 0x20000001 0) = true.
Proof.
  pose proof (CInv_compare_raw_type (@CInv.mk Z_uint256 1 0) (@CInv.mk Z_uint256 0x20000001 0)) as W.
  cbn in W.
  destruct W as (W1 & W2 & _); [reflexivity | lia | reflexivity | ].
  split; [exact W1 | exact W2].
Defined.

(** Within [unsigned int] and from 8 bytes on the estimate is safe: the
    message for the estimated count fits the payload. *)
Lemma estimateMaxInvElements_fits (maxPayloadLength : Z) :
  8 <= maxPayloadLength < 2 ^ 32 ->
  CInv.inv_message_size (CInv.estimateMaxInvElements maxPayloadLength) <= maxPayloadLength.
Proof.
  intros Hr. unfold CInv.inv_message_size, CInv.estimateMaxInvElements, wrap32.
  change ((4 + 32) mod 2 ^ 32) with 36. change (4 + 32) with 36.
  rewrite (Z.mod_small (maxPayloadLength - 8)) by lia.
  assert (0 <= (maxPayloadLength - 8) / 36 <= maxPayloadLength - 8).
  { split; [apply Z.div_pos; lia | apply Z.div_le_upper_bound; lia]. }
  rewrite Z.mod_small by lia.
  pose proof (Z.mul_div_le (maxPayloadLength - 8) 36). lia.
Qed.

(** Below 8 bytes the subtraction wraps around and the estimate is far
    beyond the payload. *)
Lemma estimateMaxInvElements_wraps (maxPayloadLength : Z) :
  0 <= maxPayloadLength < 8 ->
  119304646 <= CInv.estimateMaxInvElements maxPayloadLength
  /\ maxPayloadLength
     < CInv.inv_message_size (CInv.estimateMaxInvElements maxPayloadLength).
Proof.
  intros Hr.
  assert (maxPayloadLength = 0 \/ maxPayloadLength = 1 \/ maxPayloadLength = 2
          \/ maxPayloadLength = 3 \/ maxPayloadLength = 4 \/ maxPayloadLength = 5
          \/ maxPayloadLength = 6 \/ maxPayloadLength = 7) as Hc by lia.
  repeat destruct Hc as [-> | Hc]; try subst maxPayloadLength;
    (split; vm_compute; [discriminate | reflexivity]).
Qed.

(** C7. A payload budget of 0 bytes: [maxPayloadLength - 8] wraps to
    [2^32 - 8] and the estimate is 119304646 elements, whose message of
    8 + 36 * 119304646 bytes exceeds the budget. *)
Theorem estimateMaxInvElements_zero_budget :
  CInv.estimateMaxInvElements 0 = 119304646
  /\ CInv.inv_message_size (CInv.estimateMaxInvElements 0) = 4294967264
  /\ ~ CInv.inv_message_size (CInv.estimateMaxInvElements 0) <= 0.
Proof.
  split; [reflexivity | split; [reflexivity | ]].
  vm_compute. intros Hle. apply Hle. reflexivity.
Qed.

(** ** Protoconf *)

Section ProtoconfFacts.
Context {Stream : Type} {RS : ReadStream Stream}.
Variable MAX_STREAM_POLICY_NAME_LENGTH : Z.

(** Deserialising never touches the policies of [obj] when fewer than two
    fields are announced. *)
Lemma CProtoconf_one_field_keeps_policies (obj : CProtoconf.t) (s s1 s2 : Stream)
    (v : Z) :
  ReadCompactSize s = Return (1, s1) ->
  ReadUint32 s1 = Return (v, s2) ->
  CProtoconf.Unserialize MAX_STREAM_POLICY_NAME_LENGTH obj s
  = Return (CProtoconf.mk 1 v (CProtoconf.streamPolicies obj), s2).
Proof.
  intros Hn Hv. unfold CProtoconf.Unserialize.
  rewrite Hn; cbn. rewrite Hv; cbn. reflexivity.
Qed.

(** A failing read of a field that is announced makes the whole
    deserialisation fail with the same exception. *)
Lemma CProtoconf_truncated (obj : CProtoconf.t) (s s1 : Stream) (n : Z)
    (e : exception) :
  ReadCompactSize s = Return (n, s1) ->
  1 <= n ->
  ReadUint32 s1 = Throw e ->
  CProtoconf.Unserialize MAX_STREAM_POLICY_NAME_LENGTH obj s = Throw e.
Proof.
  intros Hn Hpos Hv. unfold CProtoconf.Unserialize.
  rewrite Hn; cbn.
  replace (n >? 0) with true by (symmetry; apply Z.gtb_lt; lia).
  rewrite Hv. reflexivity.
Qed.

(** C6. Deserialising a protoconf whose field count reads as [n]:
    with [n = 0] it throws and yields no value; with [n = 1] it reads the
    4-byte maximum receive length only and the policies stay empty; with
    [n = 2], and just the same with any larger [n], it reads the length and
    the bounded policies string and nothing after them. *)
Theorem CProtoconf_field_count (s s1 : Stream) (n : Z) :
  ReadCompactSize s = Return (n, s1) ->
  (n = 0 ->
   CProtoconf.Unserialize MAX_STREAM_POLICY_NAME_LENGTH CProtoconf.default s
   = Throw (ios_base_failure CProtoconf.zero_fields_message))
  /\ (n = 1 -> forall v s2,
      ReadUint32 s1 = Return (v, s2) ->
      CProtoconf.Unserialize MAX_STREAM_POLICY_NAME_LENGTH CProtoconf.default s
      = Return (CProtoconf.mk 1 v [], s2))
  /\ (2 <= n -> forall v s2 str s3,
      ReadUint32 s1 = Return (v, s2) ->
      ReadLimitedString
        ((MAX_STREAM_POLICY_NAME_LENGTH + 1) * CProtoconf.MAX_NUM_STREAM_POLICIES) s2
      = Return (str, s3) ->
      CProtoconf.Unserialize MAX_STREAM_POLICY_NAME_LENGTH CProtoconf.default s
      = Return (CProtoconf.mk n v str, s3)).
Proof.
  intros Hn. split; [ | split].
  - intros ->. unfold CProtoconf.Unserialize. rewrite Hn. reflexivity.
  - intros -> v s2 Hv.
    exact (CProtoconf_one_field_keeps_policies CProtoconf.default s s1 s2 v Hn Hv).
  - intros Hge v s2 str s3 Hv Hstr. unfold CProtoconf.Unserialize.
    rewrite Hn; cbn.
    replace (n >? 0) with true by (symmetry; apply Z.gtb_lt; lia).
    rewrite Hv; cbn.
    replace (n >? 1) with true by (symmetry; apply Z.gtb_lt; lia).
    rewrite Hstr. reflexivity.
Qed.

End ProtoconfFacts.

(** Three fields announced, two understood: count 3, length 0x00200000,
    the one-letter policy "A", and two bytes of a field yet unknown. *)
Lemma CProtoconf_field_count_witness :
  CProtoconf.Unserialize 64 CProtoconf.default
    [Byte.x03; Byte.x00; Byte.x00; Byte.x20; Byte.x00; Byte.x01; Byte.x41;
     Byte.xff; Byte.xee]
  = Return (CProtoconf.mk 3 2097152 [Byte.x41], [Byte.xff; Byte.xee]).
Proof.
  refine (proj2 (proj2 (CProtoconf_field_count 64
            [Byte.x03; Byte.x00; Byte.x00; Byte.x20; Byte.x00; Byte.x01; Byte.x41;
             Byte.xff; Byte.xee]
            [Byte.x00; Byte.x00; Byte.x20; Byte.x00; Byte.x01; Byte.x41;
             Byte.xff; Byte.xee]
            3 _)) _ 2097152 [Byte.x01; Byte.x41; Byte.xff; Byte.xee] [Byte.x41]
            [Byte.xff; Byte.xee] _ _).
  - reflexivity.
  - lia.
  - reflexivity.
  - reflexivity.
Defined.

(** ** The assembler's completeness test *)

Section CompleteFacts.
Context {U : Uint256} {H : CHash256} {C : Config}.

(** C5. [CNetMessage::Complete()] is true exactly when the header is
    complete and the declared payload length equals the number of bytes
    buffered. *)
Theorem CNetMessage_Complete_iff (m : CNetMessage.t) :
  CNetMessage.Complete m = true <->
  CMessageHeader.Complete (CNetMessage.hdr m) = true
  /\ CMessageHeader.GetPayloadLength (CNetMessage.hdr m)
     = Z.of_nat (length (CNetMessage.dataBuff m)).
Proof.
  unfold CNetMessage.Complete.
  destruct (CMessageHeader.Complete (CNetMessage.hdr m)); cbn.
  - rewrite Z.eqb_eq. tauto.
  - split; [discriminate | intros [Hc _]; discriminate].
Qed.

End CompleteFacts.

(** ** Byte streams and C strings *)

Lemma read_exact (n : nat) (a s : list byte) :
  length a = n -> ByteStream.read n (a ++ s) = Return (a, s).
Proof.
  intros <-. unfold ByteStream.read.
  rewrite length_app.
  replace (length a + length s <? length a)%nat with false
    by (symmetry; apply Nat.ltb_ge; lia).
  rewrite firstn_app, skipn_app, Nat.sub_diag, firstn_all, skipn_all.
  cbn. now rewrite app_nil_r.
Qed.

Lemma read_enough (n : nat) (s : list byte) :
  (n <= length s)%nat -> ByteStream.read n s = Return (firstn n s, skipn n s).
Proof.
  intros Hle. unfold ByteStream.read.
  now replace (length s <? n)%nat with false by (symmetry; apply Nat.ltb_ge; lia).
Qed.

Lemma ser_readdata_written (n : nat) (v : Z) (s : list byte) :
  0 <= v < 2 ^ (Z.of_nat n * 8) ->
  ByteStream.ser_readdata n (ByteStream.ser_writedata n v ++ s) = Return (v, s).
Proof.
  intros Hv. unfold ByteStream.ser_readdata, ByteStream.ser_writedata.
  rewrite read_exact by apply length_le_split. cbn.
  rewrite le_combine_split, Z.mod_small by assumption. reflexivity.
Qed.

Lemma printable_not_nul (c : byte) : printable c = true -> is_nul c = false.
Proof.
  unfold printable, is_nul. intros Hp.
  destruct (Byte.eqb c Byte.x00) eqn:E; [ | reflexivity].
  apply Byte.byte_dec_bl in E. subst c. discriminate Hp.
Qed.

Lemma strnlen_token (cmd : list byte) : forall (n k : nat),
  forallb printable cmd = true -> (length cmd <= n)%nat ->
  strnlen (cmd ++ repeat Byte.x00 k) n = length cmd.
Proof.
  induction cmd as [ | c cmd IH]; intros n k Hp Hn.
  - destruct n, k; reflexivity.
  - cbn in Hp, Hn. apply andb_true_iff in Hp as [Hc Hp].
    destruct n as [ | n]; [lia | ].
    cbn. rewrite (printable_not_nul _ Hc). f_equal.
    apply IH; [assumption | lia].
Qed.

Lemma strncpy_token (cmd : list byte) (n : nat) :
  forallb printable cmd = true -> (length cmd <= n)%nat ->
  strncpy cmd n = cmd ++ repeat Byte.x00 (n - length cmd).
Proof.
  intros Hp Hn. unfold strncpy.
  pose proof (strnlen_token cmd n 0 Hp Hn) as E. cbn in E.
  rewrite app_nil_r in E. rewrite E. now rewrite firstn_all.
Qed.

Lemma strncpy_length (cmd : list byte) (n : nat) :
  forallb printable cmd = true -> (length cmd <= n)%nat ->
  length (strncpy cmd n) = n.
Proof.
  intros Hp Hn. rewrite strncpy_token by assumption.
  rewrite length_app, repeat_length. lia.
Qed.

Lemma command_string_strncpy (cmd : list byte) :
  valid_command cmd ->
  command_string (strncpy cmd CMessageFields.COMMAND_SIZE) = cmd.
Proof.
  intros [Hn Hp]. rewrite strncpy_token by assumption.
  unfold command_string. rewrite strnlen_token by assumption.
  rewrite firstn_app, Nat.sub_diag, firstn_all. cbn. apply app_nil_r.
Qed.

Lemma CheckCommand_token (cmd : list byte) (k : nat) :
  forallb printable cmd = true ->
  CheckCommand (cmd ++ repeat Byte.x00 k) = true.
Proof.
  induction cmd as [ | c cmd IH]; intros Hp.
  - cbn. destruct k; [reflexivity | ]. cbn.
    induction k; [reflexivity | exact IHk].
  - cbn in Hp. apply andb_true_iff in Hp as [Hc Hp].
    cbn. rewrite (printable_not_nul _ Hc), Hc. now apply IH.
Qed.

Lemma CheckCommand_strncpy (cmd : list byte) :
  valid_command cmd ->
  CheckCommand (strncpy cmd CMessageFields.COMMAND_SIZE) = true.
Proof.
  intros [Hn Hp]. rewrite strncpy_token by assumption.
  now apply CheckCommand_token.
Qed.

Lemma bytes_eqb_refl (a : list byte) : bytes_eqb a a = true.
Proof.
  induction a as [ | x a IH]; [reflexivity | ].
  cbn. now rewrite (Byte.byte_dec_lb eq_refl), IH.
Qed.

Lemma valid_EXTMSG : valid_command EXTMSG.
Proof.
  split; [ | reflexivity].
  unfold EXTMSG, CMessageFields.COMMAND_SIZE. cbn. lia.
Qed.

Lemma firstn_exact {A : Type} (n : nat) (a b : list A) :
  length a = n -> firstn n (a ++ b) = a.
Proof.
  intros <-. rewrite firstn_app, Nat.sub_diag, firstn_all. cbn. apply app_nil_r.
Qed.

Lemma skipn_exact {A : Type} (n : nat) (a b : list A) :
  length a = n -> skipn n (a ++ b) = b.
Proof.
  intros <-. rewrite skipn_app, Nat.sub_diag, skipn_all. reflexivity.
Qed.

(** ** Header codec *)

Section HeaderFacts.

Lemma extended_Serialize_length (e : CExtendedMessageHeader.t) :
  CExtendedMessageHeader.well_formed e ->
  length (CExtendedMessageHeader.Serialize e) = 20%nat.
Proof.
  intros [Hc _]. unfold CExtendedMessageHeader.Serialize, ByteStream.ser_writedata.
  rewrite length_app, length_le_split, Hc. reflexivity.
Qed.

Lemma extended_Unserialize_Serialize (e e0 : CExtendedMessageHeader.t) (s : list byte) :
  CExtendedMessageHeader.well_formed e ->
  CExtendedMessageHeader.Unserialize e0 (CExtendedMessageHeader.Serialize e ++ s)
  = Return (e, s).
Proof.
  intros [Hc Hn].
  unfold CExtendedMessageHeader.Unserialize, CExtendedMessageHeader.Serialize.
  rewrite <- app_assoc, read_exact by assumption. cbn [bind].
  rewrite ser_readdata_written by (cbn; lia). cbn [bind].
  destruct e; reflexivity.
Qed.

Lemma Serialize_length (h : CMessageHeader.t) :
  CMessageHeader.well_formed h ->
  Z.of_nat (length (CMessageHeader.Serialize h)) = CMessageHeader.GetLength h.
Proof.
  intros (Hm & Hc & _ & Hs & He).
  unfold CMessageHeader.Serialize, CMessageHeader.Serialize_basic,
    CMessageHeader.GetLength, CMessageHeader.IsExtended, ByteStream.ser_writedata.
  rewrite !length_app, length_le_split, Hm, Hc, Hs.
  destruct (CMessageHeader.extendedFields h) as [e | ].
  - rewrite (extended_Serialize_length e He). reflexivity.
  - reflexivity.
Qed.

(** Reading back what [SerializationOp] wrote, into a header [h0] that
    holds extended fields exactly when the written header did. *)
Lemma Unserialize_Serialize (h h0 : CMessageHeader.t) (s : list byte) :
  CMessageHeader.well_formed h ->
  CMessageHeader.IsExtended h0 = CMessageHeader.IsExtended h ->
  CMessageHeader.Unserialize h0 (CMessageHeader.Serialize h ++ s)
  = Return (CMessageHeader.mk
              (CMessageHeader.pchMessageStart h) (CMessageHeader.pchCommand h)
              (CMessageHeader.nPayloadLength h) (CMessageHeader.pchChecksum h)
              (CMessageHeader.extendedFields h) (CMessageHeader.complete h0), s).
Proof.
  intros (Hm & Hc & Hn & Hs & He) Hext.
  unfold CMessageHeader.Unserialize, CMessageHeader.Serialize,
    CMessageHeader.Serialize_basic.
  rewrite <- !app_assoc.
  rewrite read_exact by assumption. cbn [bind].
  rewrite read_exact by assumption. cbn [bind].
  rewrite ser_readdata_written by (cbn; lia). cbn [bind].
  rewrite read_exact by assumption. cbn [bind].
  unfold CMessageHeader.IsExtended in Hext.
  destruct (CMessageHeader.extendedFields h0) as [e0 | ],
           (CMessageHeader.extendedFields h) as [e | ]; try discriminate.
  - rewrite extended_Unserialize_Serialize by assumption. reflexivity.
  - reflexivity.
Qed.

Lemma Serialize_basic_length (h : CMessageHeader.t) :
  CMessageHeader.well_formed h ->
  length (CMessageHeader.Serialize_basic h) = CMessageFields.BASIC_HEADER_SIZE.
Proof.
  intros (Hm & Hc & _ & Hs & _).
  unfold CMessageHeader.Serialize_basic, ByteStream.ser_writedata.
  rewrite !length_app, length_le_split, Hm, Hc, Hs. reflexivity.
Qed.

Lemma basic_length_field_Serialize_basic (h : CMessageHeader.t) (s : list byte) :
  CMessageHeader.well_formed h ->
  CMessageHeader.basic_length_field (CMessageHeader.Serialize_basic h ++ s)
  = CMessageHeader.nPayloadLength h.
Proof.
  intros (Hm & Hc & Hn & Hs & _).
  unfold CMessageHeader.basic_length_field, CMessageHeader.Serialize_basic,
    ByteStream.ser_writedata.
  rewrite <- !app_assoc.
  rewrite (app_assoc (CMessageHeader.pchMessageStart h)).
  rewrite skipn_exact
    by (rewrite length_app, Hm, Hc; reflexivity).
  rewrite firstn_exact by apply length_le_split.
  rewrite le_combine_split. apply Z.mod_small. cbn; lia.
Qed.

(** *** Filling the header buffer *)

Lemma fill_short (target : nat) (buff pch : list byte) :
  (length buff + length pch <= target)%nat ->
  CMessageHeader.fill target buff pch = (buff ++ pch, length pch).
Proof.
  intros Hle. unfold CMessageHeader.fill.
  rewrite Nat.min_r by lia. now rewrite firstn_all.
Qed.

Lemma fill_enough (target : nat) (buff pch : list byte) :
  (target <= length buff + length pch)%nat ->
  CMessageHeader.fill target buff pch
  = (buff ++ firstn (target - length buff) pch, (target - length buff)%nat).
Proof.
  intros Hle. unfold CMessageHeader.fill.
  now rewrite Nat.min_l by lia.
Qed.

Lemma fill_exact (target : nat) (buff a b : list byte) :
  (length buff + length a = target)%nat ->
  CMessageHeader.fill target buff (a ++ b) = (buff ++ a, length a).
Proof.
  intros Heq. rewrite fill_enough by (rewrite length_app; lia).
  replace (target - length buff)%nat with (length a) by lia.
  now rewrite firstn_exact.
Qed.

(** Decoding a serialised header, whatever follows it: the header is
    recovered, marked complete, and exactly its bytes are taken. *)
Lemma Read_Serialize (h : CMessageHeader.t) (magic0 rest : list byte) :
  CMessageHeader.well_formed h ->
  (CMessageHeader.IsExtended h = true <-> CMessageHeader.nPayloadLength h = UINT32_MAX) ->
  CMessageHeader.Read (CMessageHeader.init magic0) (CMessageHeader.Serialize h ++ rest) []
  = Return (CMessageHeader.mk
              (CMessageHeader.pchMessageStart h) (CMessageHeader.pchCommand h)
              (CMessageHeader.nPayloadLength h) (CMessageHeader.pchChecksum h)
              (CMessageHeader.extendedFields h) true,
            [], length (CMessageHeader.Serialize h)).
Proof.
  intros Hwf Hext.
  pose proof (Serialize_basic_length h Hwf) as Hlen.
  assert (Hfield : CMessageHeader.basic_length_field (CMessageHeader.Serialize_basic h)
                   = CMessageHeader.nPayloadLength h).
  { rewrite <- (app_nil_r (CMessageHeader.Serialize_basic h)).
    now apply basic_length_field_Serialize_basic. }
  unfold CMessageHeader.Read, CMessageHeader.Read_after_basic, CMessageHeader.Serialize.
  rewrite <- app_assoc.
  rewrite fill_exact by (cbn [length]; lia). cbn [app].
  rewrite Hfield, skipn_exact by reflexivity.
  replace (length (CMessageHeader.Serialize_basic h) <? CMessageFields.BASIC_HEADER_SIZE)%nat
    with false by (rewrite Hlen; reflexivity).
  unfold CMessageHeader.IsExtended in Hext.
  destruct (CMessageHeader.extendedFields h) as [e | ] eqn:He.
  - replace (CMessageHeader.nPayloadLength h =? UINT32_MAX) with true
      by (symmetry; apply Z.eqb_eq; now apply Hext).
    assert (Hwe : CExtendedMessageHeader.well_formed e).
    { destruct Hwf as (_ & _ & _ & _ & Hwe). now rewrite He in Hwe. }
    pose proof (extended_Serialize_length e Hwe) as Hle.
    rewrite fill_exact by (rewrite Hlen, Hle; reflexivity).
    replace (length (CMessageHeader.Serialize_basic h ++ CExtendedMessageHeader.Serialize e)
             <? CMessageFields.EXTENDED_HEADER_SIZE)%nat
      with false by (rewrite length_app, Hlen, Hle; reflexivity).
    pose proof (Unserialize_Serialize h
                  (CMessageHeader.with_extended (CMessageHeader.init magic0)) [] Hwf) as HU.
    unfold CMessageHeader.Serialize in HU. rewrite He, app_nil_r in HU.
    rewrite HU by (unfold CMessageHeader.IsExtended; now rewrite He).
    cbn. now rewrite length_app.
  - replace (CMessageHeader.nPayloadLength h =? UINT32_MAX) with false
      by (symmetry; apply Z.eqb_neq; intros E; apply Hext in E; discriminate).
    pose proof (Unserialize_Serialize h (CMessageHeader.init magic0) [] Hwf) as HU.
    unfold CMessageHeader.Serialize in HU. rewrite He, !app_nil_r in HU.
    rewrite HU by (unfold CMessageHeader.IsExtended; now rewrite He).
    cbn. now rewrite app_nil_r.
Qed.

End HeaderFacts.

(** ** Building and framing a header *)

Section FramingFacts.
Context {U : Uint256}.

Lemma IsExtendedPayload_iff (n : Z) :
  CMessageHeader.IsExtendedPayload n = true <-> UINT32_MAX <= n.
Proof.
  unfold CMessageHeader.IsExtendedPayload.
  rewrite orb_true_iff, Z.gtb_lt, Z.eqb_eq. lia.
Qed.

Lemma IsExtendedPayload_false (n : Z) :
  CMessageHeader.IsExtendedPayload n = false <-> n < UINT32_MAX.
Proof.
  destruct (CMessageHeader.IsExtendedPayload n) eqn:E.
  - apply IsExtendedPayload_iff in E. split; [discriminate | lia].
  - split; [intros _ | reflexivity].
    destruct (Z.lt_ge_cases n UINT32_MAX) as [Hlt | Hge]; [assumption | ].
    apply IsExtendedPayload_iff in Hge. congruence.
Qed.

Lemma checksum_length (hash : uint256) :
  length (firstn CMessageFields.CHECKSUM_SIZE (u256_begin hash))
  = CMessageFields.CHECKSUM_SIZE.
Proof.
  rewrite length_firstn, u256_begin_length. reflexivity.
Qed.

Lemma make_well_formed (magic command : list byte) (n : Z) (hash : uint256) :
  length magic = CMessageFields.MESSAGE_START_SIZE ->
  valid_command command ->
  0 <= n < 2 ^ 64 ->
  CMessageHeader.well_formed (CMessageHeader.make magic command n hash).
Proof.
  intros Hm [Hc Hp] Hn. unfold CMessageHeader.make.
  destruct (CMessageHeader.IsExtendedPayload n) eqn:E; unfold CMessageHeader.well_formed;
    cbn [CMessageHeader.pchMessageStart CMessageHeader.pchCommand
         CMessageHeader.nPayloadLength CMessageHeader.pchChecksum
         CMessageHeader.extendedFields].
  - split; [assumption | split; [ | split; [ | split; [apply checksum_length | ]]]].
    + destruct valid_EXTMSG. now apply strncpy_length.
    + unfold UINT32_MAX. lia.
    + split; cbn [CExtendedMessageHeader.pchCommand CExtendedMessageHeader.nPayloadLength
                  CExtendedMessageHeader.make].
      * now apply strncpy_length.
      * unfold wrap64. apply Z.mod_pos_bound. lia.
  - split; [assumption | split; [ | split; [ | split; [apply checksum_length | exact I]]]].
    + now apply strncpy_length.
    + unfold wrap32. apply Z.mod_pos_bound. lia.
Qed.

(** The sentinel is in the basic length field exactly when the header
    built has extended fields. *)
Lemma make_sentinel (magic command : list byte) (n : Z) (hash : uint256) :
  0 <= n ->
  CMessageHeader.IsExtended (CMessageHeader.make magic command n hash) = true
  <-> CMessageHeader.nPayloadLength (CMessageHeader.make magic command n hash) = UINT32_MAX.
Proof.
  intros Hn. unfold CMessageHeader.make.
  destruct (CMessageHeader.IsExtendedPayload n) eqn:E; cbn.
  - tauto.
  - apply IsExtendedPayload_false in E.
    unfold wrap32. rewrite Z.mod_small by (unfold UINT32_MAX in E; lia).
    split; [discriminate | lia].
Qed.

Lemma make_GetCommand (magic command : list byte) (n : Z) (hash : uint256) :
  valid_command command ->
  CMessageHeader.GetCommand (CMessageHeader.make magic command n hash) = command.
Proof.
  intros Hv. unfold CMessageHeader.make, CMessageHeader.GetCommand.
  destruct (CMessageHeader.IsExtendedPayload n); cbn;
    [unfold CExtendedMessageHeader.GetCommand; cbn | ];
    now apply command_string_strncpy.
Qed.

Lemma make_GetPayloadLength (magic command : list byte) (n : Z) (hash : uint256) :
  0 <= n < 2 ^ 64 ->
  CMessageHeader.GetPayloadLength (CMessageHeader.make magic command n hash) = n.
Proof.
  intros Hn. unfold CMessageHeader.make, CMessageHeader.GetPayloadLength.
  destruct (CMessageHeader.IsExtendedPayload n) eqn:E; cbn.
  - unfold wrap64. apply Z.mod_small. lia.
  - apply IsExtendedPayload_false in E.
    unfold wrap32. apply Z.mod_small. unfold UINT32_MAX in E. lia.
Qed.

(** Decoding the header that was built for a command and a length. *)
Lemma Read_make {C : Config} (command rest : list byte) (n : Z) (hash : uint256) :
  valid_command command ->
  0 <= n < 2 ^ 64 ->
  let h := CMessageHeader.make NetMagic command n hash in
  CMessageHeader.Read (CMessageHeader.init NetMagic) (CMessageHeader.Serialize h ++ rest) []
  = Return (CMessageHeader.set_complete h, [], length (CMessageHeader.Serialize h)).
Proof.
  intros Hv Hn h.
  rewrite Read_Serialize.
  - reflexivity.
  - apply make_well_formed; [apply NetMagic_length | assumption | assumption].
  - apply make_sentinel. lia.
Qed.

End FramingFacts.

Section FramingClaims.
Context {U : Uint256} {H : CHash256} {C : Config}.

(** C1. Basic framing round trip.  For a command token and a payload
    shorter than [0xFFFFFFFF] bytes, decoding the encoded message gives a
    complete, non-extended header with the network magic, the same
    command, the payload's length and the payload's checksum, and takes
    exactly the 24 header bytes, so that the payload follows unchanged.
    Reading the bytes with [SerializationOp] gives back the header that
    was written. *)
Theorem basic_framing_round_trip (command payload : list byte) :
  valid_command command ->
  Z.of_nat (length payload) < UINT32_MAX ->
  exists h : CMessageHeader.t,
    CMessageHeader.Read (CMessageHeader.init NetMagic)
      (CNetMessage.encode command payload) []
    = Return (h, [], CMessageFields.BASIC_HEADER_SIZE)
    /\ skipn CMessageFields.BASIC_HEADER_SIZE (CNetMessage.encode command payload)
       = payload
    /\ CMessageHeader.Complete h = true
    /\ CMessageHeader.IsExtended h = false
    /\ CMessageHeader.pchMessageStart h = NetMagic
    /\ CMessageHeader.GetCommand h = command
    /\ CMessageHeader.GetPayloadLength h = Z.of_nat (length payload)
    /\ CMessageHeader.pchChecksum h
       = firstn CMessageFields.CHECKSUM_SIZE (u256_begin (Hash256 payload))
    /\ CMessageHeader.Unserialize (CMessageHeader.init NetMagic)
         (CNetMessage.encode command payload)
       = Return (CMessageHeader.make NetMagic command (Z.of_nat (length payload))
                   (Hash256 payload), payload).
Proof.
  intros Hv Hlt.
  set (n := Z.of_nat (length payload)).
  set (hash := Hash256 payload).
  assert (Hn : 0 <= n < 2 ^ 64) by (unfold UINT32_MAX in Hlt; lia).
  assert (Hb : CMessageHeader.IsExtendedPayload n = false)
    by now apply IsExtendedPayload_false.
  pose proof (make_well_formed NetMagic command n hash NetMagic_length Hv Hn) as Hwf.
  assert (Hnone : CMessageHeader.extendedFields
                    (CMessageHeader.make NetMagic command n hash) = None).
  { unfold CMessageHeader.make. now rewrite Hb. }
  assert (Hlen : length (CMessageHeader.Serialize
                           (CMessageHeader.make NetMagic command n hash))
                 = CMessageFields.BASIC_HEADER_SIZE).
  { unfold CMessageHeader.Serialize. rewrite Hnone, app_nil_r.
    now apply Serialize_basic_length. }
  exists (CMessageHeader.set_complete (CMessageHeader.make NetMagic command n hash)).
  unfold CNetMessage.encode. fold n hash.
  split; [ | split; [ | split; [ | split; [ | split; [ | split; [ | split; [ | split]]]]]]].
  - rewrite Read_make by assumption. now rewrite Hlen.
  - now apply skipn_exact.
  - reflexivity.
  - unfold CMessageHeader.IsExtended. cbn. now rewrite Hnone.
  - cbn. unfold CMessageHeader.make. now rewrite Hb.
  - now apply (make_GetCommand NetMagic command n hash).
  - now apply (make_GetPayloadLength NetMagic command n hash).
  - cbn. unfold CMessageHeader.make. now rewrite Hb.
  - rewrite Unserialize_Serialize.
    + unfold CMessageHeader.make. now rewrite Hb.
    + assumption.
    + unfold CMessageHeader.IsExtended. now rewrite Hnone.
Qed.

(** C2. Choice of framing.  The encoder builds extended fields exactly
    when the payload length is [0xFFFFFFFF] or more.  Then the header
    takes 44 bytes, its basic length field is the sentinel, and decoding
    finds the declared length in the 8-byte extended field, which is what
    [GetPayloadLength] returns whatever the basic field holds.  For a
    smaller length the header has no extended fields and takes 24 bytes. *)
Theorem framing_choice (command rest : list byte) (n : Z) (hash : uint256) :
  valid_command command ->
  0 <= n < 2 ^ 64 ->
  let h := CMessageHeader.make NetMagic command n hash in
  (CMessageHeader.IsExtended h = true <-> UINT32_MAX <= n)
  /\ (UINT32_MAX <= n ->
      length (CMessageHeader.Serialize h) = CMessageFields.EXTENDED_HEADER_SIZE
      /\ CMessageHeader.basic_length_field (CMessageHeader.Serialize h) = UINT32_MAX
      /\ exists h' e,
          CMessageHeader.Read (CMessageHeader.init NetMagic)
            (CMessageHeader.Serialize h ++ rest) []
          = Return (h', [], CMessageFields.EXTENDED_HEADER_SIZE)
          /\ CMessageHeader.extendedFields h' = Some e
          /\ CExtendedMessageHeader.nPayloadLength e = n
          /\ CMessageHeader.nPayloadLength h' = UINT32_MAX
          /\ CMessageHeader.GetPayloadLength h' = n
          /\ CMessageHeader.GetCommand h' = command)
  /\ (n < UINT32_MAX ->
      CMessageHeader.extendedFields h = None
      /\ length (CMessageHeader.Serialize h) = CMessageFields.BASIC_HEADER_SIZE
      /\ CMessageHeader.nPayloadLength h = n)
  /\ (forall (g : CMessageHeader.t) (e : CExtendedMessageHeader.t),
      CMessageHeader.extendedFields g = Some e ->
      CMessageHeader.GetPayloadLength g = CExtendedMessageHeader.nPayloadLength e).
Proof.
  intros Hv Hn h.
  pose proof (make_well_formed NetMagic command n hash NetMagic_length Hv Hn) as Hwf.
  fold h in Hwf.
  split; [ | split; [ | split]].
  - unfold h, CMessageHeader.make, CMessageHeader.IsExtended.
    destruct (CMessageHeader.IsExtendedPayload n) eqn:E; cbn.
    + apply IsExtendedPayload_iff in E. tauto.
    + apply IsExtendedPayload_false in E. split; [discriminate | lia].
  - intros Hge. apply IsExtendedPayload_iff in Hge.
    assert (Hh : h = CMessageHeader.mk NetMagic
                       (strncpy EXTMSG CMessageFields.COMMAND_SIZE) UINT32_MAX
                       (firstn CMessageFields.CHECKSUM_SIZE (u256_begin hash))
                       (Some (CExtendedMessageHeader.make command n)) false).
    { unfold h, CMessageHeader.make. now rewrite Hge. }
    assert (Hlen : length (CMessageHeader.Serialize h)
                   = CMessageFields.EXTENDED_HEADER_SIZE).
    { apply Nat2Z.inj. rewrite Serialize_length by assumption.
      unfold CMessageHeader.GetLength, CMessageHeader.IsExtended. now rewrite Hh. }
    split; [exact Hlen | split].
    + unfold CMessageHeader.Serialize.
      rewrite basic_length_field_Serialize_basic by assumption. now rewrite Hh.
    + exists (CMessageHeader.set_complete h), (CExtendedMessageHeader.make command n).
      split; [ | split; [ | split; [ | split; [ | split]]]].
      * unfold h. rewrite Read_make by assumption. fold h. now rewrite Hlen.
      * now rewrite Hh.
      * cbn. unfold wrap64. apply Z.mod_small. lia.
      * now rewrite Hh.
      * apply (make_GetPayloadLength NetMagic command n hash Hn).
      * apply (make_GetCommand NetMagic command n hash Hv).
  - intros Hlt. apply IsExtendedPayload_false in Hlt.
    assert (Hh : h = CMessageHeader.mk NetMagic
                       (strncpy command CMessageFields.COMMAND_SIZE) (wrap32 n)
                       (firstn CMessageFields.CHECKSUM_SIZE (u256_begin hash))
                       None false).
    { unfold h, CMessageHeader.make. now rewrite Hlt. }
    split; [now rewrite Hh | split].
    + apply Nat2Z.inj. rewrite Serialize_length by assumption.
      unfold CMessageHeader.GetLength, CMessageHeader.IsExtended. now rewrite Hh.
    + rewrite Hh. cbn. apply IsExtendedPayload_false in Hlt.
      unfold wrap32. apply Z.mod_small. unfold UINT32_MAX in Hlt. lia.
  - intros g e Hg. unfold CMessageHeader.GetPayloadLength. now rewrite Hg.
Qed.

End FramingClaims.

(** The command "ping" with its 8-byte nonce as payload. *)
Lemma basic_framing_round_trip_witness :
  exists h : CMessageHeader.t,
    CMessageHeader.Read (CMessageHeader.init NetMagic)
      (CNetMessage.encode
         [Byte.x70; Byte.x69; Byte.x6e; Byte.x67]
         [Byte.x01; Byte.x02; Byte.x03; Byte.x04; Byte.x05; Byte.x06; Byte.x07; Byte.x08])
      []
    = Return (h, [], 24%nat)
    /\ CMessageHeader.GetCommand h = [Byte.x70; Byte.x69; Byte.x6e; Byte.x67]
    /\ CMessageHeader.GetPayloadLength h = 8.
Proof.
  destruct (basic_framing_round_trip (U := Z_uint256) (H := toy_hash) (C := test_config)
              [Byte.x70; Byte.x69; Byte.x6e; Byte.x67]
              [Byte.x01; Byte.x02; Byte.x03; Byte.x04; Byte.x05; Byte.x06; Byte.x07;
               Byte.x08])
    as (h & HR & _ & _ & _ & _ & Hc & Hl & _).
  - split; [unfold CMessageFields.COMMAND_SIZE; cbn; lia | reflexivity].
  - unfold UINT32_MAX. cbn. lia.
  - exists h. split; [exact HR | split; [exact Hc | exact Hl]].
Defined.

(** The command "block" with a payload of five billion bytes. *)
Lemma framing_choice_witness :
  CMessageHeader.IsExtended
    (CMessageHeader.make (U := Z_uint256) NetMagic
       [Byte.x62; Byte.x6c; Byte.x6f; Byte.x63; Byte.x6b] 5000000000 0) = true
  <-> UINT32_MAX <= 5000000000.
Proof.
  refine (proj1 (framing_choice (U := Z_uint256) (C := test_config)
                   [Byte.x62; Byte.x6c; Byte.x6f; Byte.x63; Byte.x6b] []
                   5000000000 0 _ _)).
  - split; [unfold CMessageFields.COMMAND_SIZE; cbn; lia | reflexivity].
  - lia.
Defined.

(** ** The header codec under chunked input *)

Section HeaderChunks.

Lemma fill_app_short (target : nat) (buff a b : list byte) :
  (length buff + length a <= target)%nat ->
  CMessageHeader.fill target buff (a ++ b)
  = (fst (CMessageHeader.fill target (buff ++ a) b),
     (length a + snd (CMessageHeader.fill target (buff ++ a) b))%nat).
Proof.
  intros Hle. unfold CMessageHeader.fill. cbn [fst snd].
  rewrite !length_app.
  replace (Nat.min (target - length buff) (length a + length b))
    with (length a + Nat.min (target - (length buff + length a)) (length b))%nat by lia.
  rewrite firstn_app.
  rewrite firstn_all2 by lia.
  replace (length a + Nat.min (target - (length buff + length a)) (length b) - length a)%nat
    with (Nat.min (target - (length buff + length a)) (length b)) by lia.
  now rewrite app_assoc.
Qed.

Lemma fill_app_enough (target : nat) (buff a b : list byte) :
  (target <= length buff + length a)%nat ->
  CMessageHeader.fill target buff (a ++ b) = CMessageHeader.fill target buff a.
Proof.
  intros Hle. rewrite !fill_enough by (rewrite ?length_app; lia).
  rewrite firstn_app.
  replace (target - length buff - length a)%nat with 0%nat by lia.
  cbn. now rewrite app_nil_r.
Qed.

Lemma fill_full (target : nat) (buff pch : list byte) :
  (target <= length buff)%nat ->
  CMessageHeader.fill target buff pch = (buff, 0%nat).
Proof.
  intros Hle. unfold CMessageHeader.fill.
  replace (target - length buff)%nat with 0%nat by lia.
  cbn. now rewrite app_nil_r.
Qed.

Lemma fill_length (target : nat) (buff pch : list byte) :
  length (fst (CMessageHeader.fill target buff pch))
  = (length buff + snd (CMessageHeader.fill target buff pch))%nat
  /\ (snd (CMessageHeader.fill target buff pch) <= length pch)%nat
  /\ (snd (CMessageHeader.fill target buff pch) <= target - length buff)%nat
  /\ (length buff + length pch < target ->
      snd (CMessageHeader.fill target buff pch) = length pch)%nat
  /\ (target <= length buff + length pch ->
      snd (CMessageHeader.fill target buff pch) = target - length buff)%nat.
Proof.
  unfold CMessageHeader.fill. cbn [fst snd].
  rewrite length_app, length_firstn. lia.
Qed.

(** The length field lies within the first 24 bytes. *)
Lemma basic_length_field_app (buff s : list byte) :
  (CMessageFields.BASIC_HEADER_SIZE <= length buff)%nat ->
  CMessageHeader.basic_length_field (buff ++ s) = CMessageHeader.basic_length_field buff.
Proof.
  intros Hle. unfold CMessageHeader.basic_length_field. f_equal.
  unfold CMessageFields.BASIC_HEADER_SIZE, CMessageFields.BASIC_MESSAGE_SIZE_OFFSET,
    CMessageFields.BASIC_MESSAGE_SIZE_SIZE, CMessageFields.MESSAGE_START_SIZE,
    CMessageFields.COMMAND_SIZE, CMessageFields.CHECKSUM_SIZE in *.
  cbn [Nat.add] in *.
  rewrite skipn_app, firstn_app, length_skipn.
  replace (4 - (length buff - 16))%nat with 0%nat by lia.
  replace (16 - length buff)%nat with 0%nat by lia.
  cbn. now rewrite app_nil_r.
Qed.

Lemma Read_after_basic_shift (h : CMessageHeader.t) (pch buff : list byte) (k n : nat) :
  CMessageHeader.Read_after_basic h pch buff (k + n)
  = CMessageHeader.shift k (CMessageHeader.Read_after_basic h pch buff n).
Proof.
  unfold CMessageHeader.Read_after_basic.
  destruct (CMessageHeader.basic_length_field buff =? UINT32_MAX).
  - destruct (CMessageHeader.fill CMessageFields.EXTENDED_HEADER_SIZE buff pch) as [y n2].
    destruct (length y <? CMessageFields.EXTENDED_HEADER_SIZE)%nat.
    + cbn. now rewrite Nat.add_assoc.
    + destruct (CMessageHeader.Unserialize (CMessageHeader.with_extended h) y)
        as [[h' rest] | e]; cbn; [ | reflexivity].
      now rewrite Nat.add_assoc.
  - destruct (CMessageHeader.Unserialize h buff) as [[h' rest] | e]; reflexivity.
Qed.

(** Once a basic header is buffered, reading [a ++ b] is reading [a] and
    then, if the header is still incomplete, reading [b]. *)
Lemma Read_after_basic_app (h : CMessageHeader.t) (a b buff : list byte) (n : nat) :
  CMessageHeader.complete h = false ->
  (CMessageFields.BASIC_HEADER_SIZE <= length buff)%nat ->
  CMessageHeader.Read_after_basic h (a ++ b) buff n
  = CMessageHeader.then_Read (CMessageHeader.Read_after_basic h a buff n) b.
Proof.
  intros Hinc Hbuff. unfold CMessageHeader.Read_after_basic.
  destruct (CMessageHeader.basic_length_field buff =? UINT32_MAX) eqn:Hsent.
  - destruct (Nat.le_gt_cases CMessageFields.EXTENDED_HEADER_SIZE (length buff + length a))
      as [Hfull | Hshort].
    + rewrite fill_app_enough by assumption.
      pose proof (fill_length CMessageFields.EXTENDED_HEADER_SIZE buff a)
        as (Hl & _ & _ & _ & Hn2).
      destruct (CMessageHeader.fill CMessageFields.EXTENDED_HEADER_SIZE buff a) as [y n2].
      cbn [fst snd] in Hl, Hn2. specialize (Hn2 Hfull).
      replace (length y <? CMessageFields.EXTENDED_HEADER_SIZE)%nat with false
        by (symmetry; apply Nat.ltb_ge; lia).
      destruct (CMessageHeader.Unserialize (CMessageHeader.with_extended h) y)
        as [[h' rest] | e]; reflexivity.
    + rewrite fill_app_short by lia.
      rewrite (fill_short _ buff a) by lia.
      replace (length (buff ++ a) <? CMessageFields.EXTENDED_HEADER_SIZE)%nat with true
        by (symmetry; apply Nat.ltb_lt; rewrite length_app; lia).
      cbn [CMessageHeader.then_Read]. rewrite Hinc.
      unfold CMessageHeader.Read.
      rewrite (fill_full CMessageFields.BASIC_HEADER_SIZE) by (rewrite length_app; lia).
      replace (length (buff ++ a) <? CMessageFields.BASIC_HEADER_SIZE)%nat with false
        by (symmetry; apply Nat.ltb_ge; rewrite length_app; lia).
      cbn [skipn]. unfold CMessageHeader.Read_after_basic.
      rewrite basic_length_field_app, Hsent by assumption.
      destruct (CMessageHeader.fill CMessageFields.EXTENDED_HEADER_SIZE (buff ++ a) b)
        as [y k].
      cbn [fst snd].
      destruct (length y <? CMessageFields.EXTENDED_HEADER_SIZE)%nat.
      * cbn. do 2 f_equal. lia.
      * destruct (CMessageHeader.Unserialize (CMessageHeader.with_extended h) y)
          as [[h' rest] | e]; cbn; [ | reflexivity].
        do 2 f_equal. lia.
  - destruct (CMessageHeader.Unserialize h buff) as [[h' rest] | e]; reflexivity.
Qed.

(** The header codec does not see chunk boundaries: reading [a ++ b] is
    reading [a] and then, if the header is still incomplete, [b]. *)
Lemma header_Read_app (h : CMessageHeader.t) (a b buff : list byte) :
  CMessageHeader.complete h = false ->
  CMessageHeader.Read h (a ++ b) buff
  = CMessageHeader.then_Read (CMessageHeader.Read h a buff) b.
Proof.
  intros Hinc. unfold CMessageHeader.Read at 1 2.
  destruct (Nat.le_gt_cases CMessageFields.BASIC_HEADER_SIZE (length buff + length a))
    as [Hfull | Hshort].
  - rewrite fill_app_enough by assumption.
    pose proof (fill_length CMessageFields.BASIC_HEADER_SIZE buff a)
      as (Hl & Hle & _ & _ & Hn1).
    destruct (CMessageHeader.fill CMessageFields.BASIC_HEADER_SIZE buff a) as [x n1].
    cbn [fst snd] in Hl, Hle, Hn1. specialize (Hn1 Hfull).
    replace (length x <? CMessageFields.BASIC_HEADER_SIZE)%nat with false
      by (symmetry; apply Nat.ltb_ge; lia).
    rewrite skipn_app.
    replace (n1 - length a)%nat with 0%nat by lia. cbn [skipn].
    apply Read_after_basic_app; [assumption | lia].
  - rewrite fill_app_short by lia.
    rewrite (fill_short _ buff a) by lia.
    replace (length (buff ++ a) <? CMessageFields.BASIC_HEADER_SIZE)%nat with true
      by (symmetry; apply Nat.ltb_lt; rewrite length_app; lia).
    cbn [CMessageHeader.then_Read]. rewrite Hinc.
    unfold CMessageHeader.Read.
    destruct (CMessageHeader.fill CMessageFields.BASIC_HEADER_SIZE (buff ++ a) b)
      as [x k].
    cbn [fst snd].
    destruct (length x <? CMessageFields.BASIC_HEADER_SIZE)%nat.
    + reflexivity.
    + rewrite skipn_app, skipn_all2 by lia.
      replace (length a + k - length a)%nat with k by lia. cbn [app].
      apply Read_after_basic_shift.
Qed.

End HeaderChunks.

(** ** What the header codec returns *)

Section HeaderResults.

Lemma read_inv (n : nat) (s a s' : list byte) :
  ByteStream.read n s = Return (a, s') ->
  a = firstn n s /\ s' = skipn n s /\ (n <= length s)%nat.
Proof.
  unfold ByteStream.read.
  destruct (length s <? n)%nat eqn:E; [discriminate | ].
  apply Nat.ltb_ge in E. intros [= <- <-]. auto.
Qed.

Lemma ser_readdata_inv (n : nat) (s s' : list byte) (v : Z) :
  ByteStream.ser_readdata n s = Return (v, s') ->
  0 <= v /\ s' = skipn n s /\ (n <= length s)%nat.
Proof.
  unfold ByteStream.ser_readdata.
  destruct (ByteStream.read n s) as [[a t] | e] eqn:E; cbn; [ | discriminate].
  apply read_inv in E as (-> & -> & Hle). intros [= <- <-].
  split; [apply le_combine_bound | auto].
Qed.

Lemma extended_Unserialize_inv (e e' : CExtendedMessageHeader.t) (s rest : list byte) :
  CExtendedMessageHeader.Unserialize e s = Return (e', rest) ->
  rest = skipn 20 s /\ (20 <= length s)%nat /\ 0 <= CExtendedMessageHeader.nPayloadLength e'.
Proof.
  unfold CExtendedMessageHeader.Unserialize.
  destruct (ByteStream.read CMessageFields.COMMAND_SIZE s) as [[cmd s1] | x] eqn:E1;
    cbn [bind]; [ | discriminate].
  destruct (ByteStream.ser_readdata CMessageFields.EXTENDED_MESSAGE_SIZE_SIZE s1)
    as [[len s2] | x] eqn:E2; cbn [bind]; [ | discriminate].
  intros [= <- <-].
  apply read_inv in E1 as (_ & -> & H1).
  apply ser_readdata_inv in E2 as (Hv & -> & H2).
  rewrite length_skipn in H2. rewrite skipn_skipn.
  unfold CMessageFields.COMMAND_SIZE, CMessageFields.EXTENDED_MESSAGE_SIZE_SIZE in *.
  cbn [CExtendedMessageHeader.nPayloadLength Nat.add].
  split; [reflexivity | split; [lia | assumption]].
Qed.

(** A successful [SerializationOp] read takes 24 bytes, or 44 when the
    header read into has extended fields; lengths read are not negative. *)
Lemma Unserialize_inv (h h' : CMessageHeader.t) (s rest : list byte) :
  CMessageHeader.Unserialize h s = Return (h', rest) ->
  let size := if CMessageHeader.IsExtended h then 44%nat else 24%nat in
  rest = skipn size s
  /\ (size <= length s)%nat
  /\ 0 <= CMessageHeader.GetPayloadLength h'
  /\ CMessageHeader.complete h' = CMessageHeader.complete h.
Proof.
  unfold CMessageHeader.Unserialize, CMessageHeader.IsExtended.
  destruct (ByteStream.read CMessageFields.MESSAGE_START_SIZE s) as [[magic s1] | x] eqn:E1;
    cbn [bind]; [ | discriminate].
  destruct (ByteStream.read CMessageFields.COMMAND_SIZE s1) as [[cmd s2] | x] eqn:E2;
    cbn [bind]; [ | discriminate].
  destruct (ByteStream.ser_readdata CMessageFields.BASIC_MESSAGE_SIZE_SIZE s2)
    as [[len s3] | x] eqn:E3; cbn [bind]; [ | discriminate].
  destruct (ByteStream.read CMessageFields.CHECKSUM_SIZE s3) as [[sum s4] | x] eqn:E4;
    cbn [bind]; [ | discriminate].
  apply read_inv in E1 as (_ & -> & H1).
  apply read_inv in E2 as (_ & -> & H2).
  apply ser_readdata_inv in E3 as (Hv & -> & H3).
  apply read_inv in E4 as (_ & -> & H4).
  rewrite !length_skipn in *. rewrite !skipn_skipn in *.
  unfold CMessageFields.MESSAGE_START_SIZE, CMessageFields.COMMAND_SIZE,
    CMessageFields.BASIC_MESSAGE_SIZE_SIZE, CMessageFields.CHECKSUM_SIZE in *.
  cbn [Nat.add] in *.
  destruct (CMessageHeader.extendedFields h) as [e | ].
  - destruct (CExtendedMessageHeader.Unserialize e (skipn 24 s)) as [[e' s5] | x] eqn:E5;
      cbn [bind]; [ | discriminate].
    apply extended_Unserialize_inv in E5 as (-> & H5 & Hv5).
    rewrite length_skipn in H5. rewrite skipn_skipn. intros [= <- <-].
    cbn. split; [reflexivity | split; [lia | split; [assumption | reflexivity]]].
  - intros [= <- <-]. cbn.
    split; [reflexivity | split; [lia | split; [assumption | reflexivity]]].
Qed.

Lemma fill_fst (target : nat) (buff pch : list byte) :
  fst (CMessageHeader.fill target buff pch)
  = buff ++ firstn (snd (CMessageHeader.fill target buff pch)) pch.
Proof. reflexivity. Qed.

(** A call of the codec on a pending buffer and some bytes takes at
    least one byte.  It either completes the header, leaving the buffer
    empty, or takes all the bytes and leaves the header pending. *)
Lemma header_Read_result (h h' : CMessageHeader.t) (pch buff buff' : list byte) (n : nat) :
  CMessageHeader.Read h pch buff = Return (h', buff', n) ->
  CMessageHeader.complete h = false ->
  CMessageHeader.pending buff ->
  pch <> [] ->
  (1 <= n <= length pch)%nat
  /\ (if CMessageHeader.complete h'
      then buff' = [] /\ 0 <= CMessageHeader.GetPayloadLength h'
      else h' = h /\ n = length pch /\ CMessageHeader.pending buff').
Proof.
  intros HR Hinc Hpend Hpch.
  assert (Hpos : (1 <= length pch)%nat) by (destruct pch; [congruence | cbn; lia]).
  unfold CMessageHeader.Read in HR.
  pose proof (fill_length CMessageFields.BASIC_HEADER_SIZE buff pch) as (Hl & Hle & Hcap & Hs & Hf).
  pose proof (fill_fst CMessageFields.BASIC_HEADER_SIZE buff pch) as Hx.
  destruct (CMessageHeader.fill CMessageFields.BASIC_HEADER_SIZE buff pch) as [x n1].
  cbn [fst snd] in *.
  unfold CMessageHeader.pending in *.
  unfold CMessageFields.BASIC_HEADER_SIZE, CMessageFields.EXTENDED_HEADER_SIZE,
    CMessageFields.MESSAGE_START_SIZE, CMessageFields.COMMAND_SIZE,
    CMessageFields.BASIC_MESSAGE_SIZE_SIZE, CMessageFields.CHECKSUM_SIZE,
    CMessageFields.EXTENDED_MESSAGE_SIZE_SIZE in *.
  cbn [Nat.add] in *.
  destruct (length x <? 24)%nat eqn:E24.
  - apply Nat.ltb_lt in E24. injection HR as <- <- <-.
    rewrite Hinc. split; [lia | ]. split; [reflexivity | split; [lia | left; lia]].
  - apply Nat.ltb_ge in E24. unfold CMessageHeader.Read_after_basic in HR.
    destruct (CMessageHeader.basic_length_field x =? UINT32_MAX) eqn:Hsent.
    + apply Z.eqb_eq in Hsent.
      pose proof (fill_length 44 x (skipn n1 pch)) as (Hl2 & Hle2 & Hcap2 & Hs2 & Hf2).
      pose proof (fill_fst 44 x (skipn n1 pch)) as Hy.
      unfold CMessageFields.EXTENDED_HEADER_SIZE, CMessageFields.MESSAGE_START_SIZE,
        CMessageFields.COMMAND_SIZE, CMessageFields.BASIC_MESSAGE_SIZE_SIZE,
        CMessageFields.CHECKSUM_SIZE, CMessageFields.EXTENDED_MESSAGE_SIZE_SIZE in HR.
      cbn [Nat.add] in HR.
      destruct (CMessageHeader.fill 44 x (skipn n1 pch)) as [y n2].
      cbn [fst snd] in *. rewrite length_skipn in *.
      destruct (length y <? 44)%nat eqn:E44.
      * apply Nat.ltb_lt in E44. injection HR as <- <- <-.
        assert (Hn2 : n2 = (length pch - n1)%nat).
        { destruct (Nat.lt_ge_cases (length x + (length pch - n1)) 44) as [Hlt | Hge].
          - exact (Hs2 Hlt).
          - specialize (Hf2 Hge). lia. }
        rewrite Hinc. split; [lia | ]. split; [reflexivity | split; [lia | right]].
        split; [ | assumption].
        rewrite Hy, basic_length_field_app by exact E24. assumption.
      * apply Nat.ltb_ge in E44.
        destruct (CMessageHeader.Unserialize (CMessageHeader.with_extended h) y)
          as [[h0 rest] | e] eqn:EU; cbn [bind] in HR; [ | discriminate].
        injection HR as <- <- <-.
        apply Unserialize_inv in EU.
        cbv beta zeta iota delta [CMessageHeader.IsExtended CMessageHeader.with_extended
                                  CMessageHeader.extendedFields] in EU.
        destruct EU as (-> & _ & Hv & _).
        split; [lia | ]. cbn [CMessageHeader.set_complete CMessageHeader.complete].
        split; [apply skipn_all2; lia | exact Hv].
    + apply Z.eqb_neq in Hsent.
      destruct (CMessageHeader.Unserialize h x) as [[h0 rest] | e] eqn:EU;
        cbn [bind] in HR; [ | discriminate].
      injection HR as <- <- <-.
      assert (Hb : (length buff < 24)%nat).
      { destruct Hpend as [Hb | [Hb1 Hb2]]; [assumption | ].
        destruct (Nat.lt_ge_cases (length buff) 24) as [Hlt | Hge]; [assumption | ].
        exfalso. apply Hsent.
        replace n1 with 0%nat in Hx by lia. cbn in Hx. rewrite app_nil_r in Hx.
        now subst x. }
      apply Unserialize_inv in EU. destruct EU as (-> & Hsize & Hv & _).
      split; [lia | ]. cbn [CMessageHeader.set_complete CMessageHeader.complete].
      split; [ | exact Hv].
      apply skipn_all2. destruct (CMessageHeader.IsExtended h); lia.
Qed.

End HeaderResults.

(** ** The assembler *)

Section AssemblerFacts.
Context {U : Uint256} {H : CHash256} {C : Config}.
Implicit Types m : CNetMessage.t.

Lemma init_well_formed (magic : list byte) :
  CNetMessage.well_formed (CNetMessage.init magic).
Proof.
  unfold CNetMessage.well_formed. cbn. left.
  unfold CMessageFields.BASIC_HEADER_SIZE. cbn. lia.
Qed.

Lemma init_not_Complete (magic : list byte) :
  CNetMessage.Complete (CNetMessage.init magic) = false.
Proof. reflexivity. Qed.

(** Every call of [Read] on a message that is not complete, with some
    bytes, consumes at least one of them and keeps the state well formed. *)
Lemma Read_result m m' (pch : list byte) (n : nat) :
  CNetMessage.well_formed m ->
  CNetMessage.Complete m = false ->
  pch <> [] ->
  CNetMessage.Read m pch = Return (m', n) ->
  (1 <= n <= length pch)%nat /\ CNetMessage.well_formed m'.
Proof.
  intros Hwf Hnc Hpch.
  assert (Hpos : (1 <= length pch)%nat) by (destruct pch; [congruence | cbn; lia]).
  unfold CNetMessage.Read, CNetMessage.well_formed, CNetMessage.Complete,
    CMessageHeader.Complete in *.
  destruct (CMessageHeader.complete (CNetMessage.hdr m)) eqn:Hc; cbn [negb] in *.
  - apply Z.eqb_neq in Hnc.
    intros [= <- <-]. cbn [CNetMessage.hdr CNetMessage.dataBuff]. rewrite Hc.
    rewrite length_app, length_firstn. lia.
  - destruct (CMessageHeader.Read (CNetMessage.hdr m) pch (CNetMessage.dataBuff m))
      as [[[h' buff'] k] | e] eqn:ER; cbn [bind]; [ | discriminate].
    apply header_Read_result in ER; [ | assumption | assumption | assumption].
    destruct ER as (Hk & Hres).
    destruct (CMessageHeader.complete h') eqn:Hc'.
    + destruct (CMessageHeader.IsValid h'); cbn [negb]; [ | discriminate].
      destruct (CMessageHeader.IsOversized h'); [discriminate | ].
      intros [= <- <-]. cbn [CNetMessage.hdr CNetMessage.dataBuff]. rewrite Hc'.
      destruct Hres as (-> & Hv). cbn [length]. split; [assumption | lia].
    + intros [= <- <-]. cbn [CNetMessage.hdr CNetMessage.dataBuff]. rewrite Hc'.
      destruct Hres as (_ & _ & Hp). split; assumption.
Qed.

(** [Read] does not see chunk boundaries.  Reading [a ++ b] gives what
    reading [a] gives, or, when reading [a] takes all of [a] and leaves the
    message incomplete, what a further [Read] of [b] gives. *)
Lemma Read_app m (a b : list byte) :
  CNetMessage.well_formed m ->
  CNetMessage.Complete m = false ->
  a <> [] ->
  match CNetMessage.Read m a with
  | Throw e => CNetMessage.Read m (a ++ b) = Throw e
  | Return (m1, n1) =>
      CNetMessage.Read m (a ++ b) = Return (m1, n1)
      \/ (n1 = length a
          /\ CNetMessage.Complete m1 = false
          /\ CNetMessage.Read m (a ++ b)
             = '(m2, n2) <- CNetMessage.Read m1 b ;; Return (m2, (n1 + n2)%nat))
  end.
Proof.
  intros Hwf Hnc Ha.
  unfold CNetMessage.Read at 1 2 3 5.
  unfold CNetMessage.well_formed, CNetMessage.Complete in Hwf, Hnc.
  unfold CMessageHeader.Complete in *.
  destruct (CMessageHeader.complete (CNetMessage.hdr m)) eqn:Hc; cbn [negb] in *.
  - (* payload *)
    apply Z.eqb_neq in Hnc.
    set (rem := CMessageHeader.GetPayloadLength (CNetMessage.hdr m)
                - Z.of_nat (length (CNetMessage.dataBuff m))) in *.
    destruct (Z.le_gt_cases rem (Z.of_nat (length a))) as [Hle | Hgt].
    + left. rewrite length_app.
      replace (Z.min rem (Z.of_nat (length a + length b))) with rem by lia.
      replace (Z.min rem (Z.of_nat (length a))) with rem by lia.
      rewrite firstn_app.
      replace (Z.to_nat rem - length a)%nat with 0%nat by lia.
      cbn [firstn]. now rewrite app_nil_r.
    + right.
      replace (Z.min rem (Z.of_nat (length a))) with (Z.of_nat (length a)) by lia.
      rewrite Nat2Z.id, firstn_all.
      split; [reflexivity | split].
      * unfold CNetMessage.Complete, CMessageHeader.Complete.
        cbn [CNetMessage.hdr CNetMessage.dataBuff]. rewrite Hc. cbn [negb].
        apply Z.eqb_neq. rewrite length_app. lia.
      * unfold CNetMessage.Read.
        cbn [CNetMessage.hdr CNetMessage.dataBuff CNetMessage.hasher
             CNetMessage.data_hash CNetMessage.nTime].
        unfold CMessageHeader.Complete. rewrite Hc. cbn [negb bind].
        rewrite !length_app.
        set (k := Z.to_nat (Z.min (CMessageHeader.GetPayloadLength (CNetMessage.hdr m)
                                   - Z.of_nat (length (CNetMessage.dataBuff m) + length a))
                                  (Z.of_nat (length b)))).
        replace (Z.to_nat (Z.min rem (Z.of_nat (length a + length b))))
          with (length a + k)%nat by (unfold k, rem; lia).
        rewrite firstn_app, firstn_all2 by lia.
        replace (length a + k - length a)%nat with k by lia.
        now rewrite !app_assoc.
  - (* header *)
    rewrite header_Read_app by assumption.
    pose proof (header_Read_result (CNetMessage.hdr m)) as HR.
    destruct (CMessageHeader.Read (CNetMessage.hdr m) a (CNetMessage.dataBuff m))
      as [[[h1 buff1] n1] | e] eqn:ER; cbn [bind CMessageHeader.then_Read];
      [ | reflexivity].
    specialize (HR h1 a _ buff1 n1 ER Hc Hwf Ha). destruct HR as (Hn1 & Hres).
    unfold CMessageHeader.Complete.
    destruct (CMessageHeader.complete h1) eqn:Hc1; cbn [bind].
    + rewrite Hc1.
      destruct (CMessageHeader.IsValid h1); cbn [negb]; [ | reflexivity].
      destruct (CMessageHeader.IsOversized h1); [reflexivity | ].
      left. reflexivity.
    + destruct Hres as (-> & -> & Hp).
      right. split; [reflexivity | split].
      * unfold CNetMessage.Complete, CMessageHeader.Complete.
        cbn [CNetMessage.hdr]. now rewrite Hc.
      * unfold CNetMessage.Read.
        cbn [CNetMessage.hdr CNetMessage.dataBuff CNetMessage.hasher
             CNetMessage.data_hash CNetMessage.nTime].
        unfold CMessageHeader.Complete. rewrite Hc. cbn [negb].
        destruct (CMessageHeader.Read (CNetMessage.hdr m) b buff1)
          as [[[h2 buff2] n2] | e]; cbn [bind CMessageHeader.shift]; [ | reflexivity].
        destruct (CMessageHeader.complete h2); [ | reflexivity].
        destruct (CMessageHeader.IsValid h2); cbn [negb bind]; [ | reflexivity].
        destruct (CMessageHeader.IsOversized h2); reflexivity.
Qed.

(** *** Feeding *)

Lemma feed_loop_nil (fuel : nat) m : CNetMessage.feed_loop fuel m [] = Some (Return m).
Proof. destruct fuel; reflexivity. Qed.

Lemma feed_loop_Complete (fuel : nat) m (pch : list byte) :
  CNetMessage.Complete m = true -> CNetMessage.feed_loop fuel m pch = Some (Return m).
Proof.
  intros Hc. destruct fuel, pch; cbn; rewrite ?Hc; reflexivity.
Qed.

Lemma feed_loop_step (fuel : nat) m (pch : list byte) :
  pch <> [] ->
  CNetMessage.Complete m = false ->
  CNetMessage.feed_loop (S fuel) m pch
  = match CNetMessage.Read m pch with
    | Throw e => Some (Throw e)
    | Return (m', handled) => CNetMessage.feed_loop fuel m' (skipn handled pch)
    end.
Proof.
  intros Hp Hc. destruct pch; [congruence | ].
  cbn [CNetMessage.feed_loop]. now rewrite Hc.
Qed.

(** Fuel as large as the chunk is enough: the loop ends with a result, and
    more fuel does not change it. *)
Lemma feed_loop_fuel (f1 : nat) : forall (f2 : nat) m (pch : list byte),
  CNetMessage.well_formed m ->
  (length pch <= f1)%nat -> (length pch <= f2)%nat ->
  CNetMessage.feed_loop f1 m pch = CNetMessage.feed_loop f2 m pch
  /\ CNetMessage.feed_loop f1 m pch <> None.
Proof.
  induction f1 as [ | f1 IH]; intros f2 m pch Hwf H1 H2.
  - destruct pch; [ | cbn in H1; lia]. rewrite !feed_loop_nil. split; congruence.
  - destruct pch as [ | x pch]; [rewrite !feed_loop_nil; split; congruence | ].
    destruct (CNetMessage.Complete m) eqn:Hc.
    + rewrite !feed_loop_Complete by assumption. split; congruence.
    + destruct f2 as [ | f2]; [cbn in H2; lia | ].
      rewrite !feed_loop_step by (assumption || congruence).
      destruct (CNetMessage.Read m (x :: pch)) as [[m' n] | e] eqn:ER;
        [ | split; congruence].
      apply Read_result in ER; [ | assumption | assumption | congruence].
      destruct ER as (Hn & Hwf').
      apply IH; [assumption | | ]; rewrite length_skipn; cbn [length] in *; lia.
Qed.

Lemma feed_defined m (pch : list byte) :
  CNetMessage.well_formed m -> exists r, CNetMessage.feed m pch = Some r.
Proof.
  intros Hwf. unfold CNetMessage.feed.
  destruct (feed_loop_fuel (length pch) (length pch) m pch Hwf (le_n _) (le_n _))
    as (_ & Hsome).
  destruct (CNetMessage.feed_loop (length pch) m pch) as [r | ]; [ | congruence].
  now exists r.
Qed.

Lemma feed_nil m : CNetMessage.feed m [] = Some (Return m).
Proof. reflexivity. Qed.

Lemma feed_Complete m (pch : list byte) :
  CNetMessage.Complete m = true -> CNetMessage.feed m pch = Some (Return m).
Proof. apply feed_loop_Complete. Qed.

(** One turn of the loop, with the fuel out of the way. *)
Lemma feed_step m (pch : list byte) :
  CNetMessage.well_formed m ->
  pch <> [] ->
  CNetMessage.Complete m = false ->
  CNetMessage.feed m pch
  = match CNetMessage.Read m pch with
    | Throw e => Some (Throw e)
    | Return (m', handled) => CNetMessage.feed m' (skipn handled pch)
    end.
Proof.
  intros Hwf Hp Hc. unfold CNetMessage.feed.
  destruct (length pch) as [ | f] eqn:Hlen; [destruct pch; [congruence | discriminate] | ].
  rewrite feed_loop_step by assumption.
  destruct (CNetMessage.Read m pch) as [[m' n] | e] eqn:ER; [ | reflexivity].
  apply Read_result in ER; [ | assumption | assumption | assumption].
  destruct ER as (Hn & Hwf').
  apply feed_loop_fuel; [assumption | | ]; rewrite ?length_skipn; lia.
Qed.

Lemma feed_well_formed (k : nat) : forall m m' (pch : list byte),
  (length pch <= k)%nat ->
  CNetMessage.well_formed m ->
  CNetMessage.feed m pch = Some (Return m') ->
  CNetMessage.well_formed m'.
Proof.
  induction k as [ | k IH]; intros m m' pch Hk Hwf Hf.
  - destruct pch; [ | cbn in Hk; lia]. rewrite feed_nil in Hf. now injection Hf as <-.
  - destruct pch as [ | x pch]; [rewrite feed_nil in Hf; now injection Hf as <- | ].
    destruct (CNetMessage.Complete m) eqn:Hc.
    + rewrite feed_Complete in Hf by assumption. now injection Hf as <-.
    + rewrite feed_step in Hf by (assumption || congruence).
      destruct (CNetMessage.Read m (x :: pch)) as [[m1 n] | e] eqn:ER; [ | discriminate].
      apply Read_result in ER; [ | assumption | assumption | congruence].
      destruct ER as (Hn & Hwf1).
      apply (IH m1 m' (skipn n (x :: pch))); [ | assumption | assumption].
      rewrite length_skipn. cbn [length] in *. lia.
Qed.

Lemma and_then_Return (r : option (Exc CNetMessage.t)) :
  CNetMessage.and_then r (fun m1 => Some (Return m1)) = r.
Proof. destruct r as [[m1 | e] | ]; reflexivity. Qed.

(** Feeding [a ++ b] is feeding [a] and then [b]. *)
Lemma feed_app (k : nat) : forall m (a b : list byte),
  (length a <= k)%nat ->
  CNetMessage.well_formed m ->
  CNetMessage.feed m (a ++ b)
  = CNetMessage.and_then (CNetMessage.feed m a) (fun m1 => CNetMessage.feed m1 b).
Proof.
  induction k as [ | k IH]; intros m a b Hk Hwf.
  - destruct a; [ | cbn in Hk; lia]. reflexivity.
  - destruct a as [ | x a]; [reflexivity | ].
    destruct b as [ | y b].
    { rewrite app_nil_r. symmetry. apply and_then_Return. }
    destruct (CNetMessage.Complete m) eqn:Hc.
    { rewrite !feed_Complete by assumption. cbn [CNetMessage.and_then].
      now rewrite feed_Complete. }
    rewrite (feed_step m ((x :: a) ++ y :: b)) by (assumption || discriminate).
    rewrite (feed_step m (x :: a)) by (assumption || discriminate).
    assert (Hxa : x :: a <> []) by discriminate.
    pose proof (Read_app m (x :: a) (y :: b) Hwf Hc Hxa) as HA.
    destruct (CNetMessage.Read m (x :: a)) as [[m1 n1] | e] eqn:ER.
    + destruct (Read_result m m1 (x :: a) n1 Hwf Hc Hxa ER) as (Hn1 & Hwf1).
      destruct HA as [HA | (-> & Hc1 & HA)].
      * rewrite HA. rewrite skipn_app.
        replace (n1 - length (x :: a))%nat with 0%nat by lia. cbn [skipn].
        apply IH; [ | assumption].
        rewrite length_skipn. cbn [length] in *. lia.
      * rewrite HA. rewrite skipn_all. rewrite feed_nil. cbn [CNetMessage.and_then].
        rewrite (feed_step m1 (y :: b)) by (assumption || discriminate).
        destruct (CNetMessage.Read m1 (y :: b)) as [[m2 n2] | e]; cbn [bind];
          [ | reflexivity].
        rewrite skipn_app, skipn_all2 by lia.
        replace (length (x :: a) + n2 - length (x :: a))%nat with n2 by lia.
        reflexivity.
    + rewrite HA. reflexivity.
Qed.

(** Chunk independence: feeding chunks in order is feeding their
    concatenation in one call. *)
Lemma feed_chunks_concat (chunks : list (list byte)) : forall m,
  CNetMessage.well_formed m ->
  CNetMessage.feed_chunks m chunks = CNetMessage.feed m (concat chunks).
Proof.
  induction chunks as [ | c cs IH]; intros m Hwf; [reflexivity | ].
  cbn [CNetMessage.feed_chunks concat].
  rewrite (feed_app (length c)) by (assumption || lia).
  destruct (CNetMessage.feed m c) as [[m1 | e] | ] eqn:Ef; cbn [CNetMessage.and_then];
    [ | reflexivity | reflexivity].
  apply IH. eapply feed_well_formed; [ | exact Hwf | exact Ef]. apply le_n.
Qed.

End AssemblerFacts.

(** ** Assembling an encoded message *)

Section AssemblerClaims.
Context {U : Uint256} {H : CHash256} {C : Config}.

Lemma make_IsValid (command : list byte) (n : Z) (hash : uint256) :
  valid_command command ->
  CMessageHeader.IsValid
    (CMessageHeader.set_complete (CMessageHeader.make NetMagic command n hash)) = true.
Proof.
  intros Hv. unfold CMessageHeader.IsValid, CMessageHeader.CheckHeaderMagicAndCommand,
    CMessageHeader.make.
  destruct (CMessageHeader.IsExtendedPayload n);
    cbn [CMessageHeader.set_complete CMessageHeader.pchMessageStart
         CMessageHeader.pchCommand CMessageHeader.extendedFields];
    rewrite bytes_eqb_refl; cbn [andb].
  - unfold CExtendedMessageHeader.IsValid, CExtendedMessageHeader.make.
    cbn [CExtendedMessageHeader.pchCommand].
    rewrite (CheckCommand_strncpy command Hv).
    now rewrite (CheckCommand_strncpy EXTMSG valid_EXTMSG).
  - now rewrite (CheckCommand_strncpy command Hv).
Qed.

Lemma make_IsOversized (command : list byte) (n : Z) (hash : uint256) :
  valid_command command ->
  0 <= n < 2 ^ 64 ->
  CMessageHeader.IsOversized
    (CMessageHeader.set_complete (CMessageHeader.make NetMagic command n hash))
  = (n >? GetMaxMessageLength command).
Proof.
  intros Hv Hn. unfold CMessageHeader.IsOversized, CMessageHeader.make.
  destruct (CMessageHeader.IsExtendedPayload n) eqn:E;
    cbn [CMessageHeader.set_complete CMessageHeader.pchCommand
         CMessageHeader.nPayloadLength CMessageHeader.extendedFields].
  - unfold CExtendedMessageHeader.IsOversized, CExtendedMessageHeader.GetCommand,
      CExtendedMessageHeader.make.
    cbn [CExtendedMessageHeader.pchCommand CExtendedMessageHeader.nPayloadLength].
    rewrite (command_string_strncpy command Hv).
    unfold wrap64. now rewrite Z.mod_small by lia.
  - apply IsExtendedPayload_false in E. unfold UINT32_MAX in E.
    rewrite (command_string_strncpy command Hv).
    unfold wrap32. now rewrite Z.mod_small by lia.
Qed.

(** The call of [Read] that sees the whole header: the size check decides
    between the ban and going on, with nothing of what follows the header
    taken yet. *)
Lemma Read_header (command rest : list byte) (n : Z) (hash : uint256) :
  valid_command command ->
  0 <= n < 2 ^ 64 ->
  let h := CMessageHeader.make NetMagic command n hash in
  CNetMessage.Read (CNetMessage.init NetMagic) (CMessageHeader.Serialize h ++ rest)
  = if n >? GetMaxMessageLength command
    then Throw (BanPeer CNetMessage.oversized_header)
    else Return (CNetMessage.mk [] None [] (CMessageHeader.set_complete h) 0,
                 length (CMessageHeader.Serialize h)).
Proof.
  intros Hv Hn h. unfold CNetMessage.Read.
  change (CNetMessage.hdr (CNetMessage.init NetMagic)) with (CMessageHeader.init NetMagic).
  change (CNetMessage.dataBuff (CNetMessage.init NetMagic)) with (@nil byte).
  change (CMessageHeader.Complete (CMessageHeader.init NetMagic)) with false.
  cbn [negb].
  pose proof (Read_make command rest n hash Hv Hn) as HR.
  cbv zeta in HR. fold h in HR. rewrite HR.
  cbn [bind].
  change (CMessageHeader.Complete (CMessageHeader.set_complete h)) with true.
  cbv iota.
  unfold h. rewrite make_IsValid, make_IsOversized by assumption.
  reflexivity.
Qed.

Lemma Serialize_not_nil (h : CMessageHeader.t) (rest : list byte) :
  CMessageHeader.well_formed h -> CMessageHeader.Serialize h ++ rest <> [].
Proof.
  intros Hwf E. apply (f_equal (@length byte)) in E.
  rewrite length_app in E. unfold CMessageHeader.Serialize in E.
  rewrite length_app, (Serialize_basic_length h Hwf) in E.
  unfold CMessageFields.BASIC_HEADER_SIZE in E. cbn in E. lia.
Qed.

(** Feeding a whole encoded message whose size is allowed gives a complete
    message holding the payload. *)
Lemma feed_encoded (command payload : list byte) :
  valid_command command ->
  Z.of_nat (length payload) < 2 ^ 64 ->
  Z.of_nat (length payload) <= GetMaxMessageLength command ->
  CNetMessage.feed (CNetMessage.init NetMagic) (CNetMessage.encode command payload)
  = Some (Return (CNetMessage.mk payload None payload
                    (CMessageHeader.set_complete
                       (CMessageHeader.make NetMagic command
                          (Z.of_nat (length payload)) (Hash256 payload))) 0)).
Proof.
  intros Hv Hlen Hmax. unfold CNetMessage.encode.
  set (n := Z.of_nat (length payload)) in *.
  set (h := CMessageHeader.make NetMagic command n (Hash256 payload)).
  assert (Hn : 0 <= n < 2 ^ 64) by lia.
  assert (Hwf : CMessageHeader.well_formed h)
    by (apply make_well_formed; [apply NetMagic_length | assumption | assumption]).
  rewrite feed_step;
    [ | apply init_well_formed | now apply Serialize_not_nil | reflexivity].
  unfold h. rewrite Read_header by assumption. fold h.
  replace (n >? GetMaxMessageLength command) with false
    by (symmetry; rewrite Z.gtb_ltb; apply Z.ltb_ge; lia).
  rewrite skipn_exact by reflexivity.
  set (m1 := CNetMessage.mk [] None [] (CMessageHeader.set_complete h) 0).
  assert (Hgpl : CMessageHeader.GetPayloadLength (CMessageHeader.set_complete h) = n).
  { apply (make_GetPayloadLength NetMagic command n (Hash256 payload) Hn). }
  destruct payload as [ | x payload]; [reflexivity | ].
  assert (Hwf1 : CNetMessage.well_formed m1).
  { unfold CNetMessage.well_formed, m1. cbn [CNetMessage.hdr CNetMessage.dataBuff
      CMessageHeader.Complete CMessageHeader.set_complete CMessageHeader.complete length].
    fold (CMessageHeader.set_complete h). rewrite Hgpl. lia. }
  assert (Hc1 : CNetMessage.Complete m1 = false).
  { unfold CNetMessage.Complete, m1. cbn [CNetMessage.hdr CNetMessage.dataBuff
      CMessageHeader.Complete CMessageHeader.set_complete CMessageHeader.complete
      length negb].
    fold (CMessageHeader.set_complete h). rewrite Hgpl.
    apply Z.eqb_neq. unfold n. cbn [length]. lia. }
  rewrite feed_step by (assumption || discriminate).
  unfold CNetMessage.Read, m1.
  cbn [CNetMessage.hdr CNetMessage.dataBuff CMessageHeader.Complete
       CMessageHeader.set_complete CMessageHeader.complete negb CNetMessage.hasher
       CNetMessage.data_hash CNetMessage.nTime].
  fold (CMessageHeader.set_complete h). rewrite Hgpl.
  replace (Z.to_nat (Z.min (n - Z.of_nat (length (@nil byte)))
                       (Z.of_nat (length (x :: payload)))))
    with (length (x :: payload)) by (unfold n; cbn [length]; lia).
  rewrite firstn_all, skipn_all. reflexivity.
Qed.

(** The size test is the comparison of the declared length with the
    maximum of the command, for basic and for extended headers. *)
Lemma IsOversized_spec (h : CMessageHeader.t) :
  CMessageHeader.IsOversized h
  = (CMessageHeader.GetPayloadLength h
     >? GetMaxMessageLength (CMessageHeader.GetCommand h)).
Proof.
  unfold CMessageHeader.IsOversized, CMessageHeader.GetPayloadLength,
    CMessageHeader.GetCommand.
  now destruct (CMessageHeader.extendedFields h).
Qed.

(** While the header stays incomplete, the buffer is what it was, followed
    by all the bytes offered. *)
Lemma header_Read_pending_buffer (h h' : CMessageHeader.t) (pch buff buff' : list byte)
    (n : nat) :
  CMessageHeader.Read h pch buff = Return (h', buff', n) ->
  CMessageHeader.complete h' = false ->
  buff' = buff ++ pch.
Proof.
  unfold CMessageHeader.Read.
  pose proof (fill_length CMessageFields.BASIC_HEADER_SIZE buff pch)
    as (Hl & Hle & _ & Hs & Hf).
  pose proof (fill_fst CMessageFields.BASIC_HEADER_SIZE buff pch) as Hx.
  destruct (CMessageHeader.fill CMessageFields.BASIC_HEADER_SIZE buff pch) as [x n1].
  cbn [fst snd] in *.
  destruct (length x <? CMessageFields.BASIC_HEADER_SIZE)%nat eqn:E24.
  - apply Nat.ltb_lt in E24. intros [= <- <- <-] _.
    assert (Hn1 : n1 = length pch).
    { destruct (Nat.lt_ge_cases (length buff + length pch)
                  CMessageFields.BASIC_HEADER_SIZE) as [Hlt | Hge].
      - exact (Hs Hlt).
      - specialize (Hf Hge). lia. }
    rewrite Hx, Hn1. now rewrite firstn_all.
  - unfold CMessageHeader.Read_after_basic.
    destruct (CMessageHeader.basic_length_field x =? UINT32_MAX).
    + pose proof (fill_length CMessageFields.EXTENDED_HEADER_SIZE x (skipn n1 pch))
        as (Hl2 & _ & _ & Hs2 & Hf2).
      pose proof (fill_fst CMessageFields.EXTENDED_HEADER_SIZE x (skipn n1 pch)) as Hy.
      destruct (CMessageHeader.fill CMessageFields.EXTENDED_HEADER_SIZE x (skipn n1 pch))
        as [y n2].
      cbn [fst snd] in *.
      destruct (length y <? CMessageFields.EXTENDED_HEADER_SIZE)%nat eqn:E44.
      * apply Nat.ltb_lt in E44. intros [= <- <- <-] _.
        assert (Hn2 : n2 = length (skipn n1 pch)).
        { destruct (Nat.lt_ge_cases (length x + length (skipn n1 pch))
                      CMessageFields.EXTENDED_HEADER_SIZE) as [Hlt | Hge].
          - exact (Hs2 Hlt).
          - specialize (Hf2 Hge). lia. }
        rewrite Hy, Hn2, firstn_all, Hx, <- app_assoc.
        now rewrite firstn_skipn.
      * destruct (CMessageHeader.Unserialize (CMessageHeader.with_extended h) y)
          as [[h0 r] | e]; cbn [bind]; [ | discriminate].
        intros [= <- <- <-]. discriminate.
    + destruct (CMessageHeader.Unserialize h x) as [[h0 r] | e]; cbn [bind];
        [ | discriminate].
      intros [= <- <- <-]. discriminate.
Qed.

(** The call of [Read] that sees the whole of a serialised header,
    whatever header it is: validity and size are checked on the header
    read, with nothing of what follows the header taken. *)
Lemma Read_serialised_header (h : CMessageHeader.t) (rest : list byte) :
  CMessageHeader.well_formed h ->
  (CMessageHeader.IsExtended h = true <-> CMessageHeader.nPayloadLength h = UINT32_MAX) ->
  CNetMessage.Read (CNetMessage.init NetMagic) (CMessageHeader.Serialize h ++ rest)
  = if negb (CMessageHeader.IsValid h) then Throw (BanPeer CNetMessage.invalid_header)
    else if CMessageHeader.IsOversized h
         then Throw (BanPeer CNetMessage.oversized_header)
         else Return (CNetMessage.mk [] None []
                        (CMessageHeader.mk
                           (CMessageHeader.pchMessageStart h)
                           (CMessageHeader.pchCommand h)
                           (CMessageHeader.nPayloadLength h)
                           (CMessageHeader.pchChecksum h)
                           (CMessageHeader.extendedFields h) true) 0,
                      length (CMessageHeader.Serialize h)).
Proof.
  intros Hwf Hsent. unfold CNetMessage.Read.
  change (CNetMessage.hdr (CNetMessage.init NetMagic)) with (CMessageHeader.init NetMagic).
  change (CNetMessage.dataBuff (CNetMessage.init NetMagic)) with (@nil byte).
  change (CMessageHeader.Complete (CMessageHeader.init NetMagic)) with false.
  cbn [negb].
  rewrite (Read_Serialize h NetMagic rest Hwf Hsent).
  cbn [bind]. reflexivity.
Qed.

(** Feeding less than a whole serialised header buffers those bytes and
    nothing else: the header stays incomplete and nothing is hashed. *)
Lemma feed_header_prefix (h : CMessageHeader.t) (a b : list byte) :
  CMessageHeader.well_formed h ->
  (CMessageHeader.IsExtended h = true <-> CMessageHeader.nPayloadLength h = UINT32_MAX) ->
  a ++ b = CMessageHeader.Serialize h ->
  b <> [] ->
  CNetMessage.feed (CNetMessage.init NetMagic) a
  = Some (Return (CNetMessage.mk [] None a (CMessageHeader.init NetMagic) 0)).
Proof.
  intros Hwf Hsent Hab Hb.
  destruct a as [ | x a]; [reflexivity | ].
  assert (Hxa : x :: a <> []) by discriminate.
  rewrite feed_step by (apply init_well_formed || assumption || reflexivity).
  pose proof (Read_Serialize h NetMagic [] Hwf Hsent) as Hwhole.
  rewrite app_nil_r, <- Hab in Hwhole.
  rewrite header_Read_app in Hwhole by reflexivity.
  unfold CNetMessage.Read.
  change (CNetMessage.hdr (CNetMessage.init NetMagic)) with (CMessageHeader.init NetMagic).
  change (CNetMessage.dataBuff (CNetMessage.init NetMagic)) with (@nil byte).
  change (CMessageHeader.Complete (CMessageHeader.init NetMagic)) with false.
  cbn [negb].
  destruct (CMessageHeader.Read (CMessageHeader.init NetMagic) (x :: a) [])
    as [[[h1 buff1] n1] | e] eqn:ER; cbn [CMessageHeader.then_Read] in Hwhole;
    [ | discriminate].
  pose proof (header_Read_result _ _ _ _ _ _ ER eq_refl) as Hres.
  destruct Hres as (Hn1 & Hres);
    [left; unfold CMessageFields.BASIC_HEADER_SIZE; cbn; lia | assumption | ].
  pose proof (header_Read_pending_buffer _ _ _ _ _ _ ER) as Hbuf.
  destruct (CMessageHeader.complete h1) eqn:Hc1.
  - exfalso. injection Hwhole as _ _ Hlen.
    rewrite length_app in Hlen. cbn [length] in Hn1.
    assert (1 <= length b)%nat by (destruct b; [congruence | cbn; lia]).
    lia.
  - destruct Hres as (-> & -> & _). specialize (Hbuf eq_refl). subst buff1.
    cbn [bind]. unfold CMessageHeader.Complete. rewrite Hc1.
    rewrite skipn_all. reflexivity.
Qed.

(** C3. Every header whose declared payload length exceeds the maximum of
    its command, by one byte or more, is rejected from the header alone,
    whether it is basic or extended and however it was built.  The call of
    [Read] that completes the header throws [BanPeer] for an oversized
    header, whatever bytes follow the header and also when none does;
    feeding the bytes whole or in chunks ends in the same ban.  No payload
    byte is consumed or buffered on the way: of the bytes received, any
    part short of the whole header leaves the assembler with an incomplete
    header, nothing hashed and just those header bytes buffered, and any
    part that holds the whole header ends in the ban; and the header read
    that precedes the size check takes the bytes of the header, not one
    more, and leaves the buffer empty. *)
Theorem oversized_header_banned (h : CMessageHeader.t) (rest : list byte) :
  CMessageHeader.well_formed h ->
  (CMessageHeader.IsExtended h = true <-> CMessageHeader.nPayloadLength h = UINT32_MAX) ->
  CMessageHeader.IsValid h = true ->
  GetMaxMessageLength (CMessageHeader.GetCommand h) < CMessageHeader.GetPayloadLength h ->
  CMessageHeader.IsOversized h = true
  /\ CNetMessage.Read (CNetMessage.init NetMagic) (CMessageHeader.Serialize h ++ rest)
     = Throw (BanPeer CNetMessage.oversized_header)
  /\ CNetMessage.Read (CNetMessage.init NetMagic) (CMessageHeader.Serialize h)
     = Throw (BanPeer CNetMessage.oversized_header)
  /\ CNetMessage.feed (CNetMessage.init NetMagic) (CMessageHeader.Serialize h ++ rest)
     = Some (Throw (BanPeer CNetMessage.oversized_header))
  /\ (forall chunks : list (list byte),
      concat chunks = CMessageHeader.Serialize h ++ rest ->
      CNetMessage.feed_chunks (CNetMessage.init NetMagic) chunks
      = Some (Throw (BanPeer CNetMessage.oversized_header)))
  /\ (forall received later : list byte,
      received ++ later = CMessageHeader.Serialize h ++ rest ->
      if (length received <? length (CMessageHeader.Serialize h))%nat
      then exists m : CNetMessage.t,
          CNetMessage.feed (CNetMessage.init NetMagic) received = Some (Return m)
          /\ CMessageHeader.Complete (CNetMessage.hdr m) = false
          /\ CNetMessage.hasher m = []
          /\ CNetMessage.dataBuff m = received
      else CNetMessage.feed (CNetMessage.init NetMagic) received
           = Some (Throw (BanPeer CNetMessage.oversized_header)))
  /\ CMessageHeader.Read (CMessageHeader.init NetMagic)
       (CMessageHeader.Serialize h ++ rest) []
     = Return (CMessageHeader.set_complete h, [], length (CMessageHeader.Serialize h)).
Proof.
  intros Hwf Hsent Hvalid Hover.
  assert (Hbig : CMessageHeader.IsOversized h = true)
    by (rewrite IsOversized_spec; apply Z.gtb_lt; lia).
  assert (HR : forall tail,
             CNetMessage.Read (CNetMessage.init NetMagic) (CMessageHeader.Serialize h ++ tail)
             = Throw (BanPeer CNetMessage.oversized_header)).
  { intros tail. rewrite Read_serialised_header by assumption.
    now rewrite Hvalid, Hbig. }
  assert (HF : forall tail,
             CNetMessage.feed (CNetMessage.init NetMagic)
               (CMessageHeader.Serialize h ++ tail)
             = Some (Throw (BanPeer CNetMessage.oversized_header))).
  { intros tail. rewrite feed_step;
      [ | apply init_well_formed | now apply Serialize_not_nil | reflexivity].
    now rewrite HR. }
  split; [exact Hbig | split; [apply HR | split; [ | split; [apply HF | split; [ | split]]]]].
  4: exact (Read_Serialize h NetMagic rest Hwf Hsent).
  - rewrite <- (app_nil_r (CMessageHeader.Serialize h)). apply HR.
  - intros chunks Hchunks.
    rewrite feed_chunks_concat by apply init_well_formed.
    rewrite Hchunks. apply HF.
  - intros received later Hsplit.
    destruct (length received <? length (CMessageHeader.Serialize h))%nat eqn:Hshort.
    + apply Nat.ltb_lt in Hshort.
      assert (Hpre : received ++ skipn (length received) (CMessageHeader.Serialize h)
                     = CMessageHeader.Serialize h).
      { rewrite <- (firstn_skipn (length received) (CMessageHeader.Serialize h)) at 2.
        f_equal.
        apply (f_equal (firstn (length received))) in Hsplit.
        rewrite firstn_exact in Hsplit by reflexivity.
        rewrite firstn_app in Hsplit.
        replace (length received - length (CMessageHeader.Serialize h))%nat with 0%nat
          in Hsplit by lia.
        cbn [firstn] in Hsplit. now rewrite app_nil_r in Hsplit. }
      eexists. split; [ | split; [ | split]].
      * apply (feed_header_prefix h received _ Hwf Hsent Hpre).
        intros Hnil. apply (f_equal (@length byte)) in Hnil.
        rewrite length_skipn in Hnil. cbn in Hnil. lia.
      * reflexivity.
      * reflexivity.
      * reflexivity.
    + apply Nat.ltb_ge in Hshort.
      assert (Hpre : received
                     = CMessageHeader.Serialize h
                       ++ skipn (length (CMessageHeader.Serialize h)) received).
      { rewrite <- (firstn_skipn (length (CMessageHeader.Serialize h)) received) at 1.
        f_equal.
        apply (f_equal (firstn (length (CMessageHeader.Serialize h)))) in Hsplit.
        rewrite (firstn_exact _ (CMessageHeader.Serialize h)) in Hsplit by reflexivity.
        rewrite firstn_app in Hsplit.
        replace (length (CMessageHeader.Serialize h) - length received)%nat with 0%nat
          in Hsplit by lia.
        cbn [firstn] in Hsplit. now rewrite app_nil_r in Hsplit. }
      rewrite Hpre. apply HF.
Qed.

(** C4. Chunk independence.  Feeding the bytes of an encoded message in
    any sequence of chunks gives the result of feeding them in one call:
    the same final state, hence the same [Complete()], message hash and
    total length, or the same ban.  For a command token and a payload
    within the limits that result is a complete message whose hash is the
    hash of the payload and whose total length is the length of the
    encoded message. *)
Theorem chunked_feed_same_result (command payload : list byte)
    (chunks : list (list byte)) :
  concat chunks = CNetMessage.encode command payload ->
  exists r : Exc CNetMessage.t,
    CNetMessage.feed_chunks (CNetMessage.init NetMagic) chunks = Some r
    /\ CNetMessage.feed (CNetMessage.init NetMagic) (CNetMessage.encode command payload)
       = Some r
    /\ (valid_command command ->
        Z.of_nat (length payload) < 2 ^ 64 ->
        Z.of_nat (length payload) <= GetMaxMessageLength command ->
        exists m : CNetMessage.t,
          r = Return m
          /\ CNetMessage.observe m
             = (true, Hash256 payload,
                Z.of_nat (length (CNetMessage.encode command payload)))
          /\ CNetMessage.GetData m = payload).
Proof.
  intros Hchunks.
  destruct (feed_defined (CNetMessage.init NetMagic) (CNetMessage.encode command payload)
              (init_well_formed NetMagic)) as (r & Hr).
  exists r. split; [ | split].
  - rewrite feed_chunks_concat by apply init_well_formed. now rewrite Hchunks.
  - exact Hr.
  - intros Hv Hlen Hmax.
    rewrite feed_encoded in Hr by assumption. injection Hr as <-.
    eexists. split; [reflexivity | split; [ | reflexivity]].
    set (n := Z.of_nat (length payload)) in *.
    set (h := CMessageHeader.make NetMagic command n (Hash256 payload)).
    assert (Hn : 0 <= n < 2 ^ 64) by lia.
    assert (Hwf : CMessageHeader.well_formed h)
      by (apply make_well_formed; [apply NetMagic_length | assumption | assumption]).
    assert (Hgpl : CMessageHeader.GetPayloadLength (CMessageHeader.set_complete h) = n)
      by apply (make_GetPayloadLength NetMagic command n (Hash256 payload) Hn).
    unfold CNetMessage.observe, CNetMessage.Complete, CNetMessage.GetMessageHash,
      CNetMessage.GetTotalLength.
    cbn [CNetMessage.hdr CNetMessage.dataBuff CNetMessage.data_hash CNetMessage.hasher
         fst].
    change (CMessageHeader.Complete (CMessageHeader.set_complete h)) with true.
    cbn [negb]. rewrite Hgpl. fold n. rewrite Z.eqb_refl.
    unfold CNetMessage.encode. fold n h.
    rewrite length_app, Nat2Z.inj_add, (Serialize_length h Hwf).
    reflexivity.
Qed.

End AssemblerClaims.

(** An extended header for a "ping" that declares one byte more than the
    2 MiB allowed, received with five bytes after it, in three chunks. *)
Lemma oversized_header_banned_witness :
  CNetMessage.feed_chunks (CNetMessage.init NetMagic)
    [firstn 10 (CMessageHeader.Serialize oversized_extended_header);
     skipn 10 (CMessageHeader.Serialize oversized_extended_header)
     ++ [Byte.x01; Byte.x02];
     [Byte.x03; Byte.x04; Byte.x05]]
  = Some (Throw (BanPeer CNetMessage.oversized_header)).
Proof.
  refine (proj1 (proj2 (proj2 (proj2 (proj2
            (oversized_header_banned (U := Z_uint256) (C := test_config)
               oversized_extended_header
               [Byte.x01; Byte.x02; Byte.x03; Byte.x04; Byte.x05]
               _ _ _ _))))) _ _).
  - split; [reflexivity | split; [reflexivity | split; [ | split; [reflexivity | ]]]].
    + cbn. unfold UINT32_MAX. lia.
    + split; [reflexivity | cbn; lia].
  - split; reflexivity.
  - reflexivity.
  - vm_compute. reflexivity.
  - reflexivity.
Defined.

(** The message "ping" with an 8-byte nonce, fed one byte at a time. *)
Lemma chunked_feed_same_result_witness :
  exists r : Exc CNetMessage.t,
    CNetMessage.feed_chunks (CNetMessage.init NetMagic)
      (map (fun b => [b])
         (CNetMessage.encode (H := toy_hash)
            [Byte.x70; Byte.x69; Byte.x6e; Byte.x67]
            [Byte.x01; Byte.x02; Byte.x03; Byte.x04; Byte.x05; Byte.x06; Byte.x07;
             Byte.x08]))
    = Some r
    /\ CNetMessage.feed (CNetMessage.init NetMagic)
         (CNetMessage.encode (H := toy_hash)
            [Byte.x70; Byte.x69; Byte.x6e; Byte.x67]
            [Byte.x01; Byte.x02; Byte.x03; Byte.x04; Byte.x05; Byte.x06; Byte.x07;
             Byte.x08])
       = Some r.
Proof.
  destruct (chunked_feed_same_result (U := Z_uint256) (H := toy_hash) (C := test_config)
              [Byte.x70; Byte.x69; Byte.x6e; Byte.x67]
              [Byte.x01; Byte.x02; Byte.x03; Byte.x04; Byte.x05; Byte.x06; Byte.x07;
               Byte.x08]
              (map (fun b => [b])
                 (CNetMessage.encode (H := toy_hash)
                    [Byte.x70; Byte.x69; Byte.x6e; Byte.x67]
                    [Byte.x01; Byte.x02; Byte.x03; Byte.x04; Byte.x05; Byte.x06;
                     Byte.x07; Byte.x08])))
    as (r & H1 & H2 & _).
  - vm_compute. reflexivity.
  - exists r. split; [exact H1 | exact H2].
Defined.

(* ===================================================================== *)
(** * Part III. Further properties of the code                             *)
(* ===================================================================== *)

(** ** Inventory descriptor *)

Section CInvMore.
Context {U : Uint256}.

Lemma GetKind_mod (a : CInv.t) : CInv.GetKind a = CInv.type a mod 2 ^ 29.
Proof.
  unfold CInv.GetKind.
  change MSG_TYPE_MASK with (Z.ones 29).
  apply Z.land_ones. lia.
Qed.

(** X1. No inventory item is both a transaction and a block: [IsTx] and
    [IsSomeBlock] are never true together. *)
Theorem CInv_IsTx_IsSomeBlock_exclusive (a : CInv.t) :
  CInv.IsTx a && CInv.IsSomeBlock a = false.
Proof.
  unfold CInv.IsTx, CInv.IsSomeBlock. cbv zeta.
  destruct (Z.eqb_spec (CInv.GetKind a) MSG_TX) as [E | E]; [ | reflexivity].
  rewrite E. reflexivity.
Qed.

(** X2. Bits of [type] outside [MSG_TYPE_MASK] do not change the kind of an
    item nor how it is classified: or-ing such bits into the type leaves
    [GetKind], [IsTx] and [IsSomeBlock] as they were. *)
Theorem CInv_kind_ignores_high_bits (type hi : Z) (hash : uint256) :
  Z.land hi MSG_TYPE_MASK = 0 ->
  CInv.GetKind (CInv.mk (Z.lor type hi) hash) = CInv.GetKind (CInv.mk type hash)
  /\ CInv.IsTx (CInv.mk (Z.lor type hi) hash) = CInv.IsTx (CInv.mk type hash)
  /\ CInv.IsSomeBlock (CInv.mk (Z.lor type hi) hash)
     = CInv.IsSomeBlock (CInv.mk type hash).
Proof.
  intros Hhi.
  assert (E : CInv.GetKind (CInv.mk (Z.lor type hi) hash)
              = CInv.GetKind (CInv.mk type hash)).
  { unfold CInv.GetKind. cbn [CInv.type].
    now rewrite Z.land_lor_distr_l, Hhi, Z.lor_0_r. }
  unfold CInv.IsTx, CInv.IsSomeBlock. cbv zeta. rewrite E. auto.
Qed.

(** X3. The kind of an item is its type modulo [2^29]: it lies in
    [0, 2^29), whatever the type, and taking the kind of a kind changes
    nothing. *)
Theorem CInv_GetKind_range (a : CInv.t) (hash : uint256) :
  CInv.GetKind a = CInv.type a mod 2 ^ 29
  /\ 0 <= CInv.GetKind a <= MSG_TYPE_MASK
  /\ CInv.GetKind (CInv.mk (CInv.GetKind a) hash) = CInv.GetKind a.
Proof.
  split; [apply GetKind_mod | split].
  - rewrite GetKind_mod.
    pose proof (Z.mod_pos_bound (CInv.type a) (2 ^ 29) ltac:(lia)) as Hb.
    change MSG_TYPE_MASK with (2 ^ 29 - 1). lia.
  - rewrite (GetKind_mod (CInv.mk _ _)). cbn [CInv.type].
    rewrite GetKind_mod. apply Z.mod_mod. lia.
Qed.

(** X4. [operator==] is the equivalence that [operator<] induces: two
    items are equal exactly when neither is less than the other, so that
    ordered containers and [operator==] agree on what the same item is. *)
Theorem CInv_eq_is_unordered (a b : CInv.t) :
  CInv.operator_eq a b
  = negb (CInv.operator_lt a b) && negb (CInv.operator_lt b a).
Proof.
  destruct (CInv.operator_eq a b) eqn:Eeq.
  - apply operator_eq_eq in Eeq. subst b.
    now rewrite operator_lt_irrefl.
  - destruct (CInv.operator_lt a b) eqn:Eab; [reflexivity | ].
    destruct (CInv.operator_lt b a) eqn:Eba; [reflexivity | ].
    pose proof (operator_lt_total a b Eab Eba) as E.
    apply operator_eq_eq in E. congruence.
Qed.

(** X7. A serialised inventory item takes 36 bytes, the 4 + 32 that
    [estimateMaxInvElements] counts for an element; for a type within
    [uint32_t] the first four bytes give the type back and the others are
    the bytes of the hash. *)
Theorem CInv_Serialize_layout (a : CInv.t) :
  0 <= CInv.type a < 2 ^ 32 ->
  length (CInv_Serialize a) = 36%nat
  /\ (forall n, CInv.inv_message_size n = 8 + n * Z.of_nat (length (CInv_Serialize a)))
  /\ le_combine (firstn 4 (CInv_Serialize a)) = CInv.type a
  /\ skipn 4 (CInv_Serialize a) = u256_begin (CInv.hash a).
Proof.
  intros Ht. unfold CInv_Serialize, ByteStream.ser_writedata.
  assert (Hlen : length (le_split 4 (CInv.type a) ++ u256_begin (CInv.hash a)) = 36%nat)
    by (rewrite length_app, length_le_split, u256_begin_length; reflexivity).
  split; [exact Hlen | split; [ | split]].
  - intros n. rewrite Hlen. reflexivity.
  - rewrite firstn_exact by apply length_le_split.
    rewrite le_combine_split. apply Z.mod_small. cbn; lia.
  - apply skipn_exact, length_le_split.
Qed.

End CInvMore.

Lemma CInv_kind_ignores_high_bits_witness :
  CInv.IsTx (@CInv.mk Z_uint256 (Z.lor 1 0xE0000000) 0) = CInv.IsTx (@CInv.mk Z_uint256 1 0).
Proof.
  refine (proj1 (proj2 (CInv_kind_ignores_high_bits (U := Z_uint256) 1 0xE0000000 0 _))).
  reflexivity.
Defined.

Lemma CInv_Serialize_layout_witness :
  length (CInv_Serialize (@CInv.mk Z_uint256 2 77)) = 36%nat.
Proof.
  refine (proj1 (CInv_Serialize_layout (@CInv.mk Z_uint256 2 77) _)).
  cbn. lia.
Defined.

(** X5. From 8 bytes on, and within [unsigned int], the estimate is the
    largest count that fits: the message for the estimated count fits the
    payload and the message for one element more does not. *)
Theorem estimateMaxInvElements_largest (maxPayloadLength : Z) :
  8 <= maxPayloadLength < 2 ^ 32 ->
  CInv.inv_message_size (CInv.estimateMaxInvElements maxPayloadLength)
  <= maxPayloadLength
  < CInv.inv_message_size (CInv.estimateMaxInvElements maxPayloadLength + 1).
Proof.
  intros Hr. split; [now apply estimateMaxInvElements_fits | ].
  unfold CInv.inv_message_size, CInv.estimateMaxInvElements, wrap32.
  change ((4 + 32) mod 2 ^ 32) with 36. change (4 + 32) with 36.
  rewrite (Z.mod_small (maxPayloadLength - 8)) by lia.
  assert (0 <= (maxPayloadLength - 8) / 36 <= maxPayloadLength - 8).
  { split; [apply Z.div_pos; lia | apply Z.div_le_upper_bound; lia]. }
  rewrite Z.mod_small by lia.
  pose proof (Z.mul_succ_div_gt (maxPayloadLength - 8) 36 ltac:(lia)). lia.
Qed.

(** X6. From 8 bytes on, and within [unsigned int], a larger payload never
    gives a smaller estimate. *)
Theorem estimateMaxInvElements_monotone (small large : Z) :
  8 <= small -> small <= large -> large < 2 ^ 32 ->
  CInv.estimateMaxInvElements small <= CInv.estimateMaxInvElements large.
Proof.
  intros H8 Hle Hr. unfold CInv.estimateMaxInvElements, wrap32.
  change ((4 + 32) mod 2 ^ 32) with 36.
  rewrite !(Z.mod_small (_ - 8)) by lia.
  assert (Hs : 0 <= (small - 8) / 36 <= small - 8)
    by (split; [apply Z.div_pos; lia | apply Z.div_le_upper_bound; lia]).
  assert (Hl : 0 <= (large - 8) / 36 <= large - 8)
    by (split; [apply Z.div_pos; lia | apply Z.div_le_upper_bound; lia]).
  rewrite !Z.mod_small by lia.
  apply Z.div_le_mono; lia.
Qed.

(** The default 2 MiB payload: 58254 elements fit, 58255 do not. *)
Lemma estimateMaxInvElements_largest_witness :
  CInv.inv_message_size (CInv.estimateMaxInvElements 2097152)
  <= 2097152
  < CInv.inv_message_size (CInv.estimateMaxInvElements 2097152 + 1).
Proof. apply (estimateMaxInvElements_largest 2097152). lia. Defined.

Lemma estimateMaxInvElements_monotone_witness :
  CInv.estimateMaxInvElements 1048576 <= CInv.estimateMaxInvElements 2097152.
Proof. apply (estimateMaxInvElements_monotone 1048576 2097152); lia. Defined.

(** ** Header serialisation *)

Section HeaderMore.

(** X8. The offsets of [CMessageFields] are those of the bytes that
    [SerializationOp] writes: the magic at 0, the command at
    [BASIC_COMMAND_OFFSET], the length at [BASIC_MESSAGE_SIZE_OFFSET], the
    checksum at [CHECKSUM_OFFSET], and the extended fields, if any, from
    [BASIC_HEADER_SIZE] on; the whole takes [BASIC_HEADER_SIZE] bytes, or
    [EXTENDED_HEADER_SIZE] with extended fields. *)
Theorem header_Serialize_layout (h : CMessageHeader.t) :
  CMessageHeader.well_formed h ->
  let bytes := CMessageHeader.Serialize h in
  firstn CMessageFields.MESSAGE_START_SIZE bytes = CMessageHeader.pchMessageStart h
  /\ firstn CMessageFields.COMMAND_SIZE (skipn CMessageFields.BASIC_COMMAND_OFFSET bytes)
     = CMessageHeader.pchCommand h
  /\ le_combine (firstn CMessageFields.BASIC_MESSAGE_SIZE_SIZE
                   (skipn CMessageFields.BASIC_MESSAGE_SIZE_OFFSET bytes))
     = CMessageHeader.nPayloadLength h
  /\ firstn CMessageFields.CHECKSUM_SIZE (skipn CMessageFields.CHECKSUM_OFFSET bytes)
     = CMessageHeader.pchChecksum h
  /\ skipn CMessageFields.BASIC_HEADER_SIZE bytes
     = match CMessageHeader.extendedFields h with
       | Some e => CExtendedMessageHeader.Serialize e
       | None => []
       end
  /\ length bytes
     = if CMessageHeader.IsExtended h
       then CMessageFields.EXTENDED_HEADER_SIZE
       else CMessageFields.BASIC_HEADER_SIZE.
Proof.
  intros Hwf bytes.
  pose proof Hwf as (Hm & Hc & Hn & Hs & He).
  pose proof (Serialize_basic_length h Hwf) as Hlen.
  assert (Hw : length (ByteStream.ser_writedata CMessageFields.BASIC_MESSAGE_SIZE_SIZE
                         (CMessageHeader.nPayloadLength h))
               = CMessageFields.BASIC_MESSAGE_SIZE_SIZE) by apply length_le_split.
  split; [ | split; [ | split; [ | split; [ | split]]]].
  - unfold bytes, CMessageHeader.Serialize, CMessageHeader.Serialize_basic.
    rewrite <- !app_assoc. now apply firstn_exact.
  - unfold bytes, CMessageHeader.Serialize, CMessageHeader.Serialize_basic.
    rewrite <- !app_assoc. rewrite skipn_exact by assumption.
    now apply firstn_exact.
  - apply (basic_length_field_Serialize_basic h _ Hwf).
  - unfold bytes, CMessageHeader.Serialize, CMessageHeader.Serialize_basic.
    rewrite <- !app_assoc.
    rewrite (app_assoc (CMessageHeader.pchMessageStart h)).
    rewrite (app_assoc (CMessageHeader.pchMessageStart h ++ CMessageHeader.pchCommand h)).
    rewrite skipn_exact by (rewrite !length_app, Hm, Hc, Hw; reflexivity).
    now apply firstn_exact.
  - unfold bytes, CMessageHeader.Serialize. now apply skipn_exact.
  - apply Nat2Z.inj. unfold bytes. rewrite (Serialize_length h Hwf).
    unfold CMessageHeader.GetLength. now destruct (CMessageHeader.IsExtended h).
Qed.

(** X9. What [SerializationOp] writes it reads back: reading the bytes of
    a header, with or without extended fields, into a header that holds
    extended fields exactly when the written one does gives the written
    header and leaves the bytes that follow. *)
Theorem header_SerializationOp_round_trip (h h0 : CMessageHeader.t) (rest : list byte) :
  CMessageHeader.well_formed h ->
  CMessageHeader.IsExtended h0 = CMessageHeader.IsExtended h ->
  CMessageHeader.complete h0 = CMessageHeader.complete h ->
  CMessageHeader.Unserialize h0 (CMessageHeader.Serialize h ++ rest) = Return (h, rest).
Proof.
  intros Hwf Hext Hc.
  rewrite Unserialize_Serialize by assumption.
  rewrite Hc. now destruct h.
Qed.

(** X10. [SerializationOp] decides on the extended fields by the header it
    reads into, not by the length it reads: read into a header without
    extended fields, the bytes of an extended header give a header that is
    not extended, whose length is the sentinel, and the 20 bytes of the
    extended fields are left in the stream. *)
Theorem header_Unserialize_leaves_extended_fields
    (h h0 : CMessageHeader.t) (e : CExtendedMessageHeader.t) (rest : list byte) :
  CMessageHeader.well_formed h ->
  CMessageHeader.extendedFields h = Some e ->
  CMessageHeader.extendedFields h0 = None ->
  CMessageHeader.Unserialize h0 (CMessageHeader.Serialize h ++ rest)
  = Return (CMessageHeader.mk
              (CMessageHeader.pchMessageStart h) (CMessageHeader.pchCommand h)
              (CMessageHeader.nPayloadLength h) (CMessageHeader.pchChecksum h)
              None (CMessageHeader.complete h0),
            CExtendedMessageHeader.Serialize e ++ rest).
Proof.
  intros Hwf He H0.
  set (b := CMessageHeader.mk
              (CMessageHeader.pchMessageStart h) (CMessageHeader.pchCommand h)
              (CMessageHeader.nPayloadLength h) (CMessageHeader.pchChecksum h)
              None (CMessageHeader.complete h)).
  assert (Hb : CMessageHeader.well_formed b).
  { destruct Hwf as (Hm & Hc & Hn & Hs & _).
    split; [exact Hm | split; [exact Hc | split; [exact Hn | split; [exact Hs | exact I]]]]. }
  pose proof (Unserialize_Serialize b h0 (CExtendedMessageHeader.Serialize e ++ rest) Hb)
    as HU.
  unfold CMessageHeader.Serialize in HU |- *. rewrite He.
  cbn [b CMessageHeader.extendedFields] in HU. rewrite app_nil_r in HU.
  rewrite <- app_assoc.
  change (CMessageHeader.Serialize_basic b) with (CMessageHeader.Serialize_basic h) in HU.
  apply HU. unfold CMessageHeader.IsExtended. now rewrite H0.
Qed.

(** X11. A successful [SerializationOp] read takes exactly the first 24
    bytes of the stream, or 44 for a header read into that holds extended
    fields; it leaves the completeness flag and the presence of extended
    fields as they were. *)
Theorem header_Unserialize_consumes (h h' : CMessageHeader.t) (s rest : list byte) :
  CMessageHeader.Unserialize h s = Return (h', rest) ->
  let size := if CMessageHeader.IsExtended h
              then CMessageFields.EXTENDED_HEADER_SIZE
              else CMessageFields.BASIC_HEADER_SIZE in
  s = firstn size s ++ rest
  /\ length s = (size + length rest)%nat
  /\ CMessageHeader.complete h' = CMessageHeader.complete h
  /\ CMessageHeader.IsExtended h' = CMessageHeader.IsExtended h.
Proof.
  intros HU size.
  assert (Hext : CMessageHeader.IsExtended h' = CMessageHeader.IsExtended h).
  { revert HU. unfold CMessageHeader.Unserialize, CMessageHeader.IsExtended.
    destruct (ByteStream.read _ s) as [[a1 s1] | x]; cbn [bind]; [ | discriminate].
    destruct (ByteStream.read _ s1) as [[a2 s2] | x]; cbn [bind]; [ | discriminate].
    destruct (ByteStream.ser_readdata _ s2) as [[a3 s3] | x]; cbn [bind]; [ | discriminate].
    destruct (ByteStream.read _ s3) as [[a4 s4] | x]; cbn [bind]; [ | discriminate].
    destruct (CMessageHeader.extendedFields h) as [e | ].
    - destruct (CExtendedMessageHeader.Unserialize e s4) as [[e' s5] | x]; cbn [bind];
        [ | discriminate].
      now intros [= <- _].
    - now intros [= <- _]. }
  apply Unserialize_inv in HU. cbv zeta in HU.
  change (if CMessageHeader.IsExtended h then 44%nat else 24%nat) with size in HU.
  destruct HU as (-> & Hsize & _ & Hc).
  split; [symmetry; apply firstn_skipn | split; [ | split; assumption]].
  rewrite length_skipn. lia.
Qed.

(** X12. From fewer than 24 bytes, or fewer than 44 for a header read into
    that holds extended fields, [SerializationOp] reads no header: it
    throws. *)
Theorem header_Unserialize_truncated (h : CMessageHeader.t) (s : list byte) :
  (length s < if CMessageHeader.IsExtended h
              then CMessageFields.EXTENDED_HEADER_SIZE
              else CMessageFields.BASIC_HEADER_SIZE)%nat ->
  exists e : exception, CMessageHeader.Unserialize h s = Throw e.
Proof.
  intros Hlt.
  destruct (CMessageHeader.Unserialize h s) as [[h' rest] | e] eqn:HU.
  - apply Unserialize_inv in HU. cbv zeta in HU. destruct HU as (_ & Hsize & _).
    exfalso.
    change CMessageFields.EXTENDED_HEADER_SIZE with 44%nat in Hlt.
    change CMessageFields.BASIC_HEADER_SIZE with 24%nat in Hlt.
    destruct (CMessageHeader.IsExtended h); lia.
  - now exists e.
Qed.

End HeaderMore.

Lemma sample_header_well_formed : CMessageHeader.well_formed sample_header.
Proof.
  split; [reflexivity | split; [reflexivity | split; [ | split; [reflexivity | exact I]]]].
  cbn. lia.
Qed.

Lemma sample_extended_header_well_formed :
  CMessageHeader.well_formed sample_extended_header.
Proof.
  split; [reflexivity | split; [reflexivity | split; [ | split; [reflexivity | ]]]].
  - cbn. unfold UINT32_MAX. lia.
  - split; [reflexivity | cbn; lia].
Qed.

Lemma header_Serialize_layout_witness :
  length (CMessageHeader.Serialize sample_extended_header)
  = CMessageFields.EXTENDED_HEADER_SIZE.
Proof.
  exact (proj2 (proj2 (proj2 (proj2 (proj2
           (header_Serialize_layout sample_extended_header
              sample_extended_header_well_formed)))))).
Defined.

Lemma header_SerializationOp_round_trip_witness :
  CMessageHeader.Unserialize
    (CMessageHeader.with_extended (CMessageHeader.init []))
    (CMessageHeader.Serialize sample_extended_header ++ [Byte.xaa])
  = Return (sample_extended_header, [Byte.xaa]).
Proof.
  apply (header_SerializationOp_round_trip sample_extended_header
           (CMessageHeader.with_extended (CMessageHeader.init [])) [Byte.xaa]).
  - exact sample_extended_header_well_formed.
  - reflexivity.
  - reflexivity.
Defined.

Lemma header_Unserialize_leaves_extended_fields_witness :
  exists h : CMessageHeader.t,
    CMessageHeader.Unserialize (CMessageHeader.init [])
      (CMessageHeader.Serialize sample_extended_header)
    = Return (h, skipn 24 (CMessageHeader.Serialize sample_extended_header))
    /\ CMessageHeader.IsExtended h = false.
Proof.
  eexists. split.
  - rewrite <- (app_nil_r (CMessageHeader.Serialize sample_extended_header)) at 1.
    rewrite (header_Unserialize_leaves_extended_fields sample_extended_header
               (CMessageHeader.init []) _ []
               sample_extended_header_well_formed eq_refl eq_refl).
    reflexivity.
  - reflexivity.
Defined.

Lemma header_Unserialize_consumes_witness :
  length (CMessageHeader.Serialize sample_header ++ [Byte.xaa; Byte.xbb])
  = (CMessageFields.BASIC_HEADER_SIZE + 2)%nat.
Proof.
  exact (proj1 (proj2
           (header_Unserialize_consumes (CMessageHeader.init [])
              sample_header
              (CMessageHeader.Serialize sample_header ++ [Byte.xaa; Byte.xbb])
              [Byte.xaa; Byte.xbb] eq_refl))).
Defined.

Lemma header_Unserialize_truncated_witness :
  exists e : exception,
    CMessageHeader.Unserialize (CMessageHeader.init [])
      [Byte.xe3; Byte.xe1; Byte.xf3; Byte.xe8] = Throw e.
Proof.
  apply (header_Unserialize_truncated (CMessageHeader.init [])
           [Byte.xe3; Byte.xe1; Byte.xf3; Byte.xe8]).
  cbn. lia.
Defined.

(** ** The byte-stream formats *)

Lemma uint32_codec_ok : codec_ok uint32_codec is_uint32.
Proof.
  intros v rest Hv. apply ser_readdata_written. exact Hv.
Qed.

Lemma uint64_codec_ok : codec_ok uint64_codec is_uint64.
Proof.
  intros v rest Hv. apply ser_readdata_written. exact Hv.
Qed.

(** A marker byte is read as its value. *)
Lemma ser_readdata_marker (z : Z) (b : byte) (s : list byte) :
  0 <= z < 2 ^ 8 -> byte.of_Z z = b ->
  ByteStream.ser_readdata 1 (b :: s) = Return (z, s).
Proof.
  intros Hz <-.
  change (byte.of_Z z :: s) with (ByteStream.ser_writedata 1 z ++ s).
  apply ser_readdata_written. cbn. lia.
Qed.

Lemma compact_size_codec_ok : codec_ok compact_size_codec is_uint64.
Proof.
  intros v rest [Hlo Hhi]. cbn [dec enc compact_size_codec].
  unfold ByteWriter.WriteCompactSize, ByteStream.ReadCompactSize.
  destruct (Z.ltb_spec v 253) as [H1 | H1].
  - rewrite ser_readdata_written by (cbn; lia). cbn [bind].
    now replace (v <? 253) with true by (symmetry; apply Z.ltb_lt; lia).
  - destruct (Z.leb_spec v 0xFFFF) as [H2 | H2].
    + cbn [app]. rewrite (ser_readdata_marker 253) by (reflexivity || lia).
      cbn [bind]. cbv iota beta.
      change (253 <? 253) with false. change (253 =? 253) with true. cbv iota.
      apply ser_readdata_written. cbn; lia.
    + destruct (Z.leb_spec v 0xFFFFFFFF) as [H3 | H3].
      * cbn [app]. rewrite (ser_readdata_marker 254) by (reflexivity || lia).
        cbn [bind]. cbv iota beta.
        change (254 <? 253) with false. change (254 =? 253) with false.
        change (254 =? 254) with true. cbv iota.
        apply ser_readdata_written. cbn; lia.
      * cbn [app]. rewrite (ser_readdata_marker 255) by (reflexivity || lia).
        cbn [bind]. cbv iota beta.
        change (255 <? 253) with false. change (255 =? 253) with false.
        change (255 =? 254) with false. cbv iota.
        apply ser_readdata_written. cbn; lia.
Qed.

Lemma limited_string_codec_ok (limit : Z) :
  limit < 2 ^ 64 ->
  codec_ok (limited_string_codec limit) (fun str => Z.of_nat (length str) <= limit).
Proof.
  intros Hlimit str rest Hlen. cbn [dec enc limited_string_codec].
  unfold ByteWriter.WriteString, ByteStream.ReadLimitedString.
  rewrite <- app_assoc.
  pose proof (compact_size_codec_ok (Z.of_nat (length str)) (str ++ rest)) as HC.
  cbn [dec enc compact_size_codec] in HC.
  rewrite HC by (unfold is_uint64; lia).
  cbn [bind]. cbv iota beta.
  replace (Z.of_nat (length str) >? limit) with false
    by (symmetry; rewrite Z.gtb_ltb; apply Z.ltb_ge; lia).
  rewrite Nat2Z.id. now apply read_exact.
Qed.

Lemma bytes18_codec_ok : codec_ok bytes18_codec (fun v => length v = 18%nat).
Proof.
  intros v rest Hv. cbn [dec enc bytes18_codec]. now apply read_exact.
Qed.

(** ** Protoconf on the wire *)

Section ProtoconfWire.
Variables count_c length_c : Codec Z.
Variable policies_c : Z -> Codec (list byte).
Variable MAX_STREAM_POLICY_NAME_LENGTH : Z.

Hypothesis count_ok : codec_ok count_c is_uint64.
Hypothesis length_ok : codec_ok length_c is_uint32.
Hypothesis policies_ok :
  codec_ok (policies_c ((MAX_STREAM_POLICY_NAME_LENGTH + 1)
                        * CProtoconf.MAX_NUM_STREAM_POLICIES))
           (fun str => Z.of_nat (length str)
                       <= (MAX_STREAM_POLICY_NAME_LENGTH + 1)
                          * CProtoconf.MAX_NUM_STREAM_POLICIES).

(** X13. A protoconf that announces two fields or more, with policies
    within the bound, is read back as it was written, whatever object it
    is read into and whatever follows it in the stream. *)
Theorem CProtoconf_round_trip (obj target : CProtoconf.t) (rest : list byte) :
  2 <= CProtoconf.numberOfFields obj < 2 ^ 64 ->
  is_uint32 (CProtoconf.maxRecvPayloadLength obj) ->
  Z.of_nat (length (CProtoconf.streamPolicies obj))
  <= (MAX_STREAM_POLICY_NAME_LENGTH + 1) * CProtoconf.MAX_NUM_STREAM_POLICIES ->
  exists bytes : list byte,
    CProtoconf_Serialize count_c length_c
      (policies_c ((MAX_STREAM_POLICY_NAME_LENGTH + 1)
                   * CProtoconf.MAX_NUM_STREAM_POLICIES)) obj
    = Return bytes
    /\ CProtoconf.Unserialize (RS := codec_stream count_c length_c policies_c)
         MAX_STREAM_POLICY_NAME_LENGTH target (bytes ++ rest)
       = Return (obj, rest).
Proof.
  intros Hn Hv Hp. unfold CProtoconf_Serialize.
  replace (CProtoconf.numberOfFields obj >? 0) with true
    by (symmetry; apply Z.gtb_lt; lia).
  replace (CProtoconf.numberOfFields obj >? 1) with true
    by (symmetry; apply Z.gtb_lt; lia).
  eexists. split; [reflexivity | ].
  unfold CProtoconf.Unserialize. cbn [ReadCompactSize ReadUint32 ReadLimitedString
                                      codec_stream].
  rewrite <- !app_assoc.
  rewrite count_ok by (unfold is_uint64; lia). cbn [bind]. cbv iota beta.
  replace (CProtoconf.numberOfFields obj >? 0) with true
    by (symmetry; apply Z.gtb_lt; lia).
  rewrite length_ok by assumption. cbn [bind]. cbv iota beta.
  replace (CProtoconf.numberOfFields obj >? 1) with true
    by (symmetry; apply Z.gtb_lt; lia).
  rewrite policies_ok by assumption. cbn [bind]. cbv iota beta.
  now destruct obj.
Qed.

(** X14. A protoconf that announces one field is written without its
    policies, so that reading it gives the policies of the object read
    into; one that announces no field cannot be written. *)
Theorem CProtoconf_short_forms (obj target : CProtoconf.t) (rest : list byte)
    (policies_w : Codec (list byte)) :
  is_uint32 (CProtoconf.maxRecvPayloadLength obj) ->
  (CProtoconf.numberOfFields obj = 0 ->
   CProtoconf_Serialize count_c length_c policies_w obj
   = Throw (ios_base_failure CProtoconf.zero_fields_message))
  /\ (CProtoconf.numberOfFields obj = 1 ->
      CProtoconf_Serialize count_c length_c policies_w obj
      = Return (enc count_c 1 ++ enc length_c (CProtoconf.maxRecvPayloadLength obj))
      /\ CProtoconf.Unserialize (RS := codec_stream count_c length_c policies_c)
           MAX_STREAM_POLICY_NAME_LENGTH target
           ((enc count_c 1 ++ enc length_c (CProtoconf.maxRecvPayloadLength obj)) ++ rest)
         = Return (CProtoconf.mk 1 (CProtoconf.maxRecvPayloadLength obj)
                     (CProtoconf.streamPolicies target), rest)).
Proof.
  intros Hv. split; intros Hn; unfold CProtoconf_Serialize; rewrite Hn.
  - reflexivity.
  - split; [reflexivity | ].
    apply (CProtoconf_one_field_keeps_policies
             (RS := codec_stream count_c length_c policies_c)
             MAX_STREAM_POLICY_NAME_LENGTH target _
             (enc length_c (CProtoconf.maxRecvPayloadLength obj) ++ rest) rest).
    + cbn [ReadCompactSize codec_stream]. rewrite <- app_assoc.
      apply count_ok. unfold is_uint64. lia.
    + cbn [ReadUint32 codec_stream]. now apply length_ok.
Qed.

End ProtoconfWire.

Section ProtoconfRead.
Context {Stream : Type} {RS : ReadStream Stream}.
Variable MAX_STREAM_POLICY_NAME_LENGTH : Z.

(** X15. Whatever the stream, a protoconf that was read announces at
    least one field, the count being the one read first; if it announces
    exactly one, its policies are those the object had before. *)
Theorem CProtoconf_read_invariant (obj obj' : CProtoconf.t) (s s' : Stream) :
  CProtoconf.Unserialize MAX_STREAM_POLICY_NAME_LENGTH obj s = Return (obj', s') ->
  1 <= CProtoconf.numberOfFields obj'
  /\ (exists s1, ReadCompactSize s = Return (CProtoconf.numberOfFields obj', s1))
  /\ (CProtoconf.numberOfFields obj' = 1 ->
      CProtoconf.streamPolicies obj' = CProtoconf.streamPolicies obj).
Proof.
  unfold CProtoconf.Unserialize.
  destruct (ReadCompactSize s) as [[n s1] | e]; cbn [bind]; [ | discriminate].
  cbv iota beta.
  destruct (Z.gtb_spec n 0) as [H0 | H0]; [ | discriminate].
  destruct (ReadUint32 s1) as [[v s2] | e]; cbn [bind]; [ | discriminate].
  cbv iota beta.
  destruct (Z.gtb_spec n 1) as [H1 | H1].
  - destruct (ReadLimitedString _ s2) as [[str s3] | e]; cbn [bind]; [ | discriminate].
    intros [= <- <-]. cbn.
    split; [lia | split; [now exists s1 | lia]].
  - intros [= <- <-]. cbn.
    split; [lia | split; [now exists s1 | reflexivity]].
Qed.

End ProtoconfRead.

(** Two fields, a maximum of 2 MiB and the policy "A", then one more byte
    in the stream. *)
Lemma CProtoconf_round_trip_witness :
  exists bytes : list byte,
    CProtoconf_Serialize compact_size_codec uint32_codec (limited_string_codec 650)
      (CProtoconf.mk 2 2097152 [Byte.x41]) = Return bytes
    /\ CProtoconf.Unserialize
         (RS := codec_stream compact_size_codec uint32_codec limited_string_codec)
         64 CProtoconf.default (bytes ++ [Byte.xff])
       = Return (CProtoconf.mk 2 2097152 [Byte.x41], [Byte.xff]).
Proof.
  apply (CProtoconf_round_trip compact_size_codec uint32_codec limited_string_codec 64
           compact_size_codec_ok uint32_codec_ok
           (limited_string_codec_ok 650 ltac:(lia))
           (CProtoconf.mk 2 2097152 [Byte.x41]) CProtoconf.default [Byte.xff]).
  - cbn. lia.
  - unfold is_uint32. cbn. lia.
  - cbn. lia.
Defined.

(** One field announced: the policy "A" of the object written is not
    sent, and the object read keeps the policy "B" it had. *)
Lemma CProtoconf_short_forms_witness :
  CProtoconf.Unserialize
    (RS := codec_stream compact_size_codec uint32_codec limited_string_codec)
    64 (CProtoconf.mk 2 0 [Byte.x42])
    ((enc compact_size_codec 1 ++ enc uint32_codec 2097152) ++ [])
  = Return (CProtoconf.mk 1 2097152 [Byte.x42], []).
Proof.
  refine (proj2 (proj2 (CProtoconf_short_forms compact_size_codec uint32_codec
                          limited_string_codec 64
                          compact_size_codec_ok uint32_codec_ok
                          (CProtoconf.mk 1 2097152 [Byte.x41])
                          (CProtoconf.mk 2 0 [Byte.x42]) []
                          (limited_string_codec 650) _) _)).
  - unfold is_uint32. cbn. lia.
  - reflexivity.
Defined.

Lemma CProtoconf_read_invariant_witness :
  1 <= CProtoconf.numberOfFields (CProtoconf.mk 3 2097152 [Byte.x41]).
Proof.
  refine (proj1 (CProtoconf_read_invariant 64 CProtoconf.default
                   (CProtoconf.mk 3 2097152 [Byte.x41])
                   [Byte.x03; Byte.x00; Byte.x00; Byte.x20; Byte.x00; Byte.x01; Byte.x41;
                    Byte.xff; Byte.xee]
                   [Byte.xff; Byte.xee] _)).
  reflexivity.
Defined.

(** ** Service flags and peer addresses *)

(** X16. The named service flags are separate bits of the mask: setting
    one leaves the test of every other as it was, and a flag that was set
    tests as set. *)
Theorem ServiceFlags_independent (f g : ServiceFlag) (mask : Z) :
  f <> g ->
  Z.land (Z.lor mask (ServiceFlag_value f)) (ServiceFlag_value g)
  = Z.land mask (ServiceFlag_value g)
  /\ Z.land (Z.lor mask (ServiceFlag_value f)) (ServiceFlag_value f)
     = ServiceFlag_value f.
Proof.
  intros Hfg. split.
  - rewrite Z.land_lor_distr_l.
    replace (Z.land (ServiceFlag_value f) (ServiceFlag_value g)) with 0
      by (destruct f, g; try reflexivity; congruence).
    apply Z.lor_0_r.
  - apply Z.bits_inj'. intros n Hn.
    rewrite Z.land_spec, Z.lor_spec.
    destruct (Z.testbit mask n), (Z.testbit (ServiceFlag_value f) n); reflexivity.
Qed.

Lemma ServiceFlags_independent_witness :
  Z.land (Z.lor (ServiceFlag_value NODE_MVC_CASH) (ServiceFlag_value NODE_NETWORK))
         (ServiceFlag_value NODE_BLOOM)
  = Z.land (ServiceFlag_value NODE_MVC_CASH) (ServiceFlag_value NODE_BLOOM).
Proof.
  refine (proj1 (ServiceFlags_independent NODE_NETWORK NODE_BLOOM
                   (ServiceFlag_value NODE_MVC_CASH) _)).
  discriminate.
Defined.

Lemma int32_codec_ok : codec_ok int32_codec is_int32.
Proof.
  intros v rest [Hlo Hhi]. cbn [dec enc int32_codec].
  unfold ByteStream.ser_readdata, ByteStream.ser_writedata.
  rewrite read_exact by apply length_le_split. cbn [bind]. cbv iota beta.
  rewrite le_combine_split. change (Z.of_nat 4 * 8) with 32.
  destruct (Z.lt_ge_cases v 0) as [Hneg | Hpos].
  - replace (v mod 2 ^ 32) with (v + 2 ^ 32)
      by (apply Z.mod_unique with (q := -1); lia).
    replace (v + 2 ^ 32 <? 2 ^ 31) with false by (symmetry; apply Z.ltb_ge; lia).
    do 2 f_equal. lia.
  - rewrite Z.mod_small by lia.
    now replace (v <? 2 ^ 31) with true by (symmetry; apply Z.ltb_lt; lia).
Qed.

Section CAddressFacts.
Context {CService : Type}.
Variable service_c : Codec CService.
Variables int_c uint_c uint64_c : Codec Z.
Variables SER_DISK SER_GETHASH CADDR_TIME_VERSION : Z.
Variable service_dom : CService -> Prop.

#[local] Abbreviation Serialize :=
  (CAddress.Serialize service_c int_c uint_c uint64_c SER_DISK SER_GETHASH
     CADDR_TIME_VERSION).
#[local] Abbreviation Unserialize :=
  (CAddress.Unserialize service_c int_c uint_c uint64_c SER_DISK SER_GETHASH
     CADDR_TIME_VERSION).
#[local] Abbreviation on_disk := (CAddress.on_disk SER_DISK).
#[local] Abbreviation with_time := (CAddress.with_time SER_DISK SER_GETHASH CADDR_TIME_VERSION).

(** X17. Off disk, an address read from a stream older than
    [CADDR_TIME_VERSION], or from a stream for hashing, has no time of its
    own: [nTime] stays what it was in the object read into (100000000 in
    a newly made one), and the stream is read as services, then service. *)
Theorem CAddress_read_without_time
    (nType nVersion : Z) (obj obj' : CAddress.t) (s s' : list byte) :
  Unserialize nType nVersion obj s = Return (obj', s') ->
  Z.land nType SER_DISK = 0 ->
  nVersion < CADDR_TIME_VERSION \/ Z.land nType SER_GETHASH <> 0 ->
  CAddress.nTime obj' = CAddress.nTime obj
  /\ exists s1,
      dec uint64_c s = Return (CAddress.nServices obj', s1)
      /\ dec service_c s1 = Return (CAddress.service obj', s').
Proof.
  intros HU Hdisk Hold. unfold CAddress.Unserialize in HU.
  assert (Hd : on_disk nType = false)
    by (unfold CAddress.on_disk; rewrite Hdisk; reflexivity).
  assert (Ht : with_time nType nVersion = false).
  { unfold CAddress.with_time. rewrite Hd. cbn [orb].
    destruct Hold as [Hv | Hh].
    - now replace (nVersion >=? CADDR_TIME_VERSION) with false
        by (symmetry; rewrite Z.geb_leb; apply Z.leb_gt; lia).
    - apply Z.eqb_neq in Hh. rewrite Hh. cbn. apply andb_false_r. }
  rewrite Hd in HU. cbn [bind] in HU. cbv iota beta in HU. rewrite Ht in HU.
  cbn [bind] in HU. cbv iota beta in HU.
  destruct (dec uint64_c s) as [[sv s1] | e]; cbn [bind] in HU; [ | discriminate].
  cbv iota beta in HU.
  destruct (dec service_c s1) as [[svc s2] | e] eqn:Es; cbn [bind] in HU;
    [ | discriminate].
  injection HU as <- <-. cbn.
  split; [reflexivity | ]. exists s1. split; [reflexivity | exact Es].
Qed.

(** X18. On disk the version of the stream plays no part in reading an
    address: the stored version is read first and the time always. *)
Theorem CAddress_read_on_disk
    (nType version1 version2 : Z) (obj : CAddress.t) (s : list byte) :
  Z.land nType SER_DISK <> 0 ->
  Unserialize nType version1 obj s = Unserialize nType version2 obj s
  /\ forall obj' s',
      Unserialize nType version1 obj s = Return (obj', s') ->
      exists stored s1 s2,
        dec int_c s = Return (stored, s1)
        /\ dec uint_c s1 = Return (CAddress.nTime obj', s2).
Proof.
  intros Hdisk.
  assert (Hd : on_disk nType = true)
    by (unfold CAddress.on_disk; apply Z.eqb_neq in Hdisk; now rewrite Hdisk).
  unfold CAddress.Unserialize, CAddress.with_time. rewrite Hd. cbn [orb].
  split; [reflexivity | ].
  intros obj' s'.
  destruct (dec int_c s) as [[stored s1] | e]; cbn [bind]; [ | discriminate].
  cbv iota beta.
  destruct (dec uint_c s1) as [[time s2] | e] eqn:Et; cbn [bind]; [ | discriminate].
  cbv iota beta.
  destruct (dec uint64_c s2) as [[sv s3] | e]; cbn [bind]; [ | discriminate].
  cbv iota beta.
  destruct (dec service_c s3) as [[svc s4] | e]; cbn [bind]; [ | discriminate].
  intros [= <- <-]. cbn. exists stored, s1, s2. split; [reflexivity | exact Et].
Qed.

Hypothesis service_ok : codec_ok service_c service_dom.
Hypothesis int_ok : codec_ok int_c is_int32.
Hypothesis uint_ok : codec_ok uint_c is_uint32.
Hypothesis uint64_ok : codec_ok uint64_c is_uint64.

(** X19. An address written to a stream is read back from a stream of the
    same type when the stream is on disk, or when writer and reader stand
    on the same side of [CADDR_TIME_VERSION]: service and services come
    back, and the time too where it is written; where it is not, the
    time is that of the object read into. *)
Theorem CAddress_round_trip
    (nType written_version read_version : Z) (obj target : CAddress.t)
    (rest : list byte) :
  service_dom (CAddress.service obj) ->
  is_uint64 (CAddress.nServices obj) ->
  is_uint32 (CAddress.nTime obj) ->
  is_int32 written_version ->
  Z.land nType SER_DISK <> 0
  \/ (written_version >=? CADDR_TIME_VERSION) = (read_version >=? CADDR_TIME_VERSION) ->
  Unserialize nType read_version target (Serialize nType written_version obj ++ rest)
  = Return (CAddress.mk (CAddress.service obj) (CAddress.nServices obj)
              (if with_time nType written_version
               then CAddress.nTime obj else CAddress.nTime target),
            rest).
Proof.
  intros Hs Hsv Ht Hv Hside.
  unfold CAddress.Unserialize, CAddress.Serialize.
  destruct (on_disk nType) eqn:Hd.
  - assert (Hw : forall v, with_time nType v = true)
      by (intros v; unfold CAddress.with_time; now rewrite Hd).
    rewrite !Hw. rewrite <- !app_assoc.
    rewrite int_ok by assumption. cbn [bind]. cbv iota beta. rewrite Hw.
    rewrite uint_ok by assumption. cbn [bind]. cbv iota beta.
    rewrite uint64_ok by assumption. cbn [bind]. cbv iota beta.
    rewrite service_ok by assumption. reflexivity.
  - assert (Hsame : with_time nType read_version = with_time nType written_version).
    { unfold CAddress.with_time. rewrite Hd. cbn [orb].
      destruct Hside as [Hdisk | ->]; [ | reflexivity].
      unfold CAddress.on_disk in Hd. apply Z.eqb_neq in Hdisk.
      rewrite Hdisk in Hd. discriminate. }
    cbn [app bind]. cbv iota beta. rewrite Hsame.
    destruct (with_time nType written_version).
    + rewrite <- !app_assoc.
      rewrite uint_ok by assumption. cbn [bind]. cbv iota beta.
      rewrite uint64_ok by assumption. cbn [bind]. cbv iota beta.
      rewrite service_ok by assumption. reflexivity.
    + cbn [app bind]. cbv iota beta. rewrite <- !app_assoc.
      rewrite uint64_ok by assumption. cbn [bind]. cbv iota beta.
      rewrite service_ok by assumption. reflexivity.
Qed.

End CAddressFacts.

(** An address of a peer offering [NODE_NETWORK], read on the network from
    a stream of version 209, before [CADDR_TIME_VERSION] = 31402: the
    time stays at the 100000000 of a newly made address. *)
Lemma CAddress_read_without_time_witness :
  CAddress.nTime (CAddress.mk (repeat Byte.x01 18) 1 100000000) = 100000000.
Proof.
  refine (proj1 (CAddress_read_without_time bytes18_codec int32_codec uint32_codec
                   uint64_codec 2 4 31402
                   1 209
                   (CAddress.make (repeat Byte.x00 18) 0)
                   (CAddress.mk (repeat Byte.x01 18) 1 100000000)
                   (enc uint64_codec 1 ++ repeat Byte.x01 18) [] _ _ _)).
  - reflexivity.
  - reflexivity.
  - left. lia.
Defined.

Lemma CAddress_read_on_disk_witness :
  CAddress.Unserialize bytes18_codec int32_codec uint32_codec uint64_codec 2 4 31402
    2 0 (CAddress.make (repeat Byte.x00 18) 0) [Byte.x7f]
  = CAddress.Unserialize bytes18_codec int32_codec uint32_codec uint64_codec 2 4 31402
      2 70015 (CAddress.make (repeat Byte.x00 18) 0) [Byte.x7f].
Proof.
  refine (proj1 (CAddress_read_on_disk bytes18_codec int32_codec uint32_codec
                   uint64_codec 2 4 31402
                   2 0 70015 (CAddress.make (repeat Byte.x00 18) 0) [Byte.x7f] _)).
  cbn. lia.
Defined.

(** The same address written and read on the network at version 70015,
    with its time. *)
Lemma CAddress_round_trip_witness :
  CAddress.Unserialize bytes18_codec int32_codec uint32_codec uint64_codec 2 4 31402
    1 70015 (CAddress.make (repeat Byte.x00 18) 0)
    (CAddress.Serialize bytes18_codec int32_codec uint32_codec uint64_codec 2 4 31402
       1 70015 (CAddress.mk (repeat Byte.x01 18) 1 1700000000) ++ [])
  = Return (CAddress.mk (repeat Byte.x01 18) 1
              (if CAddress.with_time 2 4 31402 1 70015
               then 1700000000 else 100000000), []).
Proof.
  apply (CAddress_round_trip bytes18_codec int32_codec uint32_codec uint64_codec 2 4 31402
           (fun v => length v = 18%nat)
           bytes18_codec_ok int32_codec_ok uint32_codec_ok uint64_codec_ok
           1 70015 70015
           (CAddress.mk (repeat Byte.x01 18) 1 1700000000)
           (CAddress.make (repeat Byte.x00 18) 0) []).
  - reflexivity.
  - unfold is_uint64. cbn. lia.
  - unfold is_uint32. cbn. lia.
  - unfold is_int32. lia.
  - right. reflexivity.
Defined.
